(** * gym-locm: the MCTS searcher, the error kinds and the win/loss reward

    A shallow embedding of
      - [gym_locm/engine/enums.py]      ([PlayerOrder]),
      - [gym_locm/exceptions.py]        (the exception classes),
      - [gym_locm/envs/rewards.py]      ([WinLossRewardFunction]),
      - [gym_locm/algorithms/mcts.py]   (the [MCTS] class).

    Conventions of the embedding.
      - Python [int] is [Z]; Python [float] is idealised as a real number
        ([R]), with [float("-inf")] added where the code uses it.
      - A [defaultdict] is a [gmap] read with a default.  Reading a missing
        key of a [defaultdict] also stores the default under that key; [Q]
        and [N] are only ever indexed (never iterated or tested for
        membership), so the model keeps their value view.  The [children]
        table is tested for membership, and the code never indexes it at a
        missing key on a path that returns.
      - A method that can raise or loop returns a [result]; [while] loops
        take a fuel argument. *)

From Stdlib Require Import ZArith List Lia Reals Lra.
From stdpp Require Import base option list gmap fin_sets relations strings.

Local Open Scope Z_scope.

(* ===================================================================== *)
(** ** Python exceptions and results *)

(** The exception classes of [exceptions.py], with [Exception] as their
    common root. *)
Inductive PyClass : Type :=
  | Exception
  | GameError
  | ActionError
  | FullHandError
  | EmptyDeckError
  | WardShieldError
  | NotEnoughManaError
  | FullLaneError
  | MalformedActionError.

#[global] Instance PyClass_eq_dec : EqDecision PyClass.
Proof. solve_decision. Defined.

(** The base class written in each [class C(B)] header. *)
Definition base (c : PyClass) : option PyClass :=
  match c with
  | Exception => None
  | GameError => Some Exception
  | ActionError => Some Exception
  | FullHandError => Some GameError
  | EmptyDeckError => Some GameError
  | WardShieldError => Some GameError
  | NotEnoughManaError => Some ActionError
  | FullLaneError => Some ActionError
  | MalformedActionError => Some ActionError
  end.

(** The chain of a class and its ancestors (single inheritance). *)
Fixpoint ancestors (depth : nat) (c : PyClass) : list PyClass :=
  match depth with
  | O => [c]
  | S d => c :: match base c with
                | None => []
                | Some b => ancestors d b
                end
  end.

Definition mro (c : PyClass) : list PyClass := ancestors 9 c.

Definition issubclass (c d : PyClass) : bool := bool_decide (d ∈ mro c).

(** The six error kinds the rules engine signals. *)
Definition error_kinds : list PyClass :=
  [FullHandError; EmptyDeckError; WardShieldError;
   NotEnoughManaError; FullLaneError; MalformedActionError].

(** What a call can raise: the built-in exceptions the searcher can meet
    and the engine's classes. *)
Inductive exn : Type :=
  | RuntimeError
  | AssertionError
  | ZeroDivisionError
  | ValueError
  | IndexError
  | EngineError (k : PyClass).

Inductive result (A : Type) : Type :=
  | Ok (a : A)
  | Raise (e : exn)
  | OutOfFuel.
Arguments Ok {A} a.
Arguments Raise {A} e.
Arguments OutOfFuel {A}.

#[global] Instance result_ret : MRet result := λ A a, Ok a.
#[global] Instance result_bind : MBind result := λ A B f m,
  match m with
  | Ok a => f a
  | Raise e => Raise e
  | OutOfFuel => OutOfFuel
  end.

(* ===================================================================== *)
(** ** [enums.py]: PlayerOrder *)

Inductive PlayerOrder : Type := FIRST | SECOND.

#[global] Instance PlayerOrder_eq_dec : EqDecision PlayerOrder.
Proof. solve_decision. Defined.

(** The integer value of a member of the [IntEnum]. *)
Definition int_of (p : PlayerOrder) : Z :=
  match p with FIRST => 0 | SECOND => 1 end.

(** [PlayerOrder(v)]: the member with value [v]; [ValueError] if none. *)
Definition PlayerOrder_of (v : Z) : result PlayerOrder :=
  if v =? 0 then Ok FIRST else if v =? 1 then Ok SECOND else Raise ValueError.

(** [opposing]: [PlayerOrder((self + 1) % 2)]. *)
Definition opposing (self : PlayerOrder) : result PlayerOrder :=
  PlayerOrder_of ((int_of self + 1) mod 2).

(* ===================================================================== *)
(** ** The collaborators of the searcher

    [mcts.py] is written against duck-typed nodes wrapping engine states:
    a node has [is_terminal], [find_children], [find_random_child] and a
    [state]; a state has [winner], [current_player.id], [clone] and [act].
    Nodes are dictionary keys, hence hashable with decidable equality. *)

Class Game (State Action Node : Type) `{Countable Node} := {
  winner : State → option PlayerOrder;
  current_player_id : State → PlayerOrder;
  clone : State → State;
(** [game.act(action)] mutates the state in place or raises one of the
      engine's classes. *)
  act : State → Action → State + PyClass;
  node_state : Node → State;
  is_terminal : Node → bool;
  find_children : Node → list Node;
  find_random_child : Node → Node;
}.

(* ===================================================================== *)
(** ** [rewards.py]: WinLossRewardFunction *)

Section Rewards.
Context `{Game State Action Node}.

(** [state.winner == p] where [state.winner] may be [None]. *)
Definition winner_is (state : State) (p : PlayerOrder) : bool :=
    bool_decide (winner state = Some p).

Definition calculate (state : State) (for_player : PlayerOrder) : result Z :=
    if winner_is state for_player then Ok 1
    else
      opp ← opposing for_player;
      if winner_is state opp then Ok (-1) else Ok 0.
End Rewards.

(* ===================================================================== *)
(** ** Python's [max(iterable, key=...)] *)

Section PyMax.
Context {A K : Type} (gt : K → K → bool).

(** The scan of [max]: the running best is replaced only by an item whose
      key is strictly greater, so the first maximal item wins. *)
Fixpoint max_from (best : A) (kbest : K) (l : list (A * K)) : A :=
    match l with
    | [] => best
    | (x, kx) :: l' =>
        if gt kx kbest then max_from x kx l' else max_from best kbest l'
    end.

(** [max] of an empty sequence raises [ValueError]. *)
Definition py_max (l : list (A * K)) : result A :=
    match l with
    | [] => Raise ValueError
    | (x, kx) :: l' => Ok (max_from x kx l')
    end.
End PyMax.

(** Comparison of idealised floats. *)
Definition Rgtb (x y : R) : bool := if Rgt_dec x y then true else false.

(** The key of [choose]: [float("-inf")] or an average. *)
Inductive score_t : Type :=
  | NegInf
  | Fin (r : R).

Definition score_gt (x y : score_t) : bool :=
  match x, y with
  | NegInf, _ => false
  | Fin _, NegInf => true
  | Fin a, Fin b => Rgtb a b
  end.


(* ===================================================================== *)
(** ** [mcts.py]: the MCTS class *)

Section MCTS.
Context `{Game State Action Node}.

(** The fields set by [__init__]. *)
Record MCTS : Type := mkMCTS {
    agents : PlayerOrder → State → Action;
    Q : gmap Node Z;
    N : gmap Node Z;
    children : gmap Node (list Node);
    exploration_weight : R;
  }.

Definition MCTS_init (agents : PlayerOrder → State → Action)
      (exploration_weight : R) : MCTS :=
    mkMCTS agents ∅ ∅ ∅ exploration_weight.

(** [self.Q[n]] and [self.N[n]]: a missing key reads as [int()], 0. *)
Definition getQ (self : MCTS) (n : Node) : Z := default 0 (Q self !! n).
Definition getN (self : MCTS) (n : Node) : Z := default 0 (N self !! n).
(** [self.children[n]]: a missing key reads as [list()]. *)
Definition get_children (self : MCTS) (n : Node) : list Node :=
    default [] (children self !! n).

(** [n in self.children]. *)
Definition expanded (self : MCTS) (n : Node) : bool :=
    bool_decide (n ∈ dom (children self)).

(** *** choose *)

Definition score (self : MCTS) (n : Node) : score_t :=
    if getN self n =? 0 then NegInf
    else Fin (IZR (getQ self n) / IZR (getN self n)).

Definition choose (self : MCTS) (node : Node) : result Node :=
    if is_terminal node then Raise RuntimeError
    else if negb (expanded self node) then Ok (find_random_child node)
    else py_max score_gt (map (λ n, (n, score self n)) (get_children self node)).

(** *** _uct_select *)

(** The inner function [uct], given [log_n_vertex].  The division raises
      on a zero count and [math.sqrt] raises on a negative argument. *)
Definition uct (self : MCTS) (log_n_vertex : R) (n : Node) : result R :=
    if getN self n =? 0 then Raise ZeroDivisionError
    else
      let arg := (log_n_vertex / IZR (getN self n))%R in
      if Rlt_dec arg 0 then Raise ValueError
      else Ok (IZR (getQ self n) / IZR (getN self n)
               + exploration_weight self * sqrt arg)%R.

Definition _uct_select (self : MCTS) (node : Node) : result Node :=
    if forallb (expanded self) (get_children self node) then
      (* [math.log] raises on a non-positive argument *)
      if getN self node <=? 0 then Raise ValueError
      else
        let log_n_vertex := ln (IZR (getN self node)) in
        keys ← mapM (λ n, k ← uct self log_n_vertex n; Ok (n, k))
                    (get_children self node);
        py_max Rgtb keys
    else Raise AssertionError.

(** *** _select *)

(** One turn of the [while True] loop per unit of fuel; [path] is the
      list built so far. *)
Fixpoint _select (fuel : nat) (self : MCTS) (node : Node)
      (path : list Node) : result (list Node) :=
    match fuel with
    | O => OutOfFuel
    | S fuel' =>
        let path := path ++ [node] in
        if negb (expanded self node)
           || bool_decide (get_children self node = [])
           || is_terminal node
        then Ok path
        else
          let unexplored :=
            filter (λ item, ¬ item ∈ dom (children self))
                   (get_children self node) in
          match last unexplored with
          | Some n => Ok (path ++ [n])
          | None =>
              n ← _uct_select self node;
              _select fuel' self n path
          end
    end.

(** *** _expand *)

Definition _expand (self : MCTS) (node : Node) : MCTS :=
    if expanded self node then self
    else mkMCTS (agents self) (Q self) (N self)
                (<[node := find_children node]> (children self))
                (exploration_weight self).

(** *** _simulate *)

(** The [while game.winner is None] loop on the cloned state, then the
      [return]. *)
Fixpoint playout (fuel : nat) (self : MCTS) (game : State) : result Z :=
    match fuel with
    | O => OutOfFuel
    | S fuel' =>
        match winner game with
        | None =>
            let action := agents self (current_player_id game) game in
            match act game action with
            | inl game' => playout fuel' self game'
            | inr k => Raise (EngineError k)
            end
        | Some w => Ok (if decide (w = FIRST) then 1 else -1)
        end
    end.

Definition _simulate (fuel : nat) (self : MCTS) (node : Node) : result Z :=
    playout fuel self (clone (node_state node)).

(** *** _backpropagate *)

(** The body of the [for] loop. *)
Definition backpropagate_node (reward : Z) (self : MCTS) (node : Node)
      : MCTS :=
    let N' := <[node := getN self node + 1]> (N self) in
    let Q' :=
      if decide (current_player_id (node_state node) = FIRST)
      then <[node := getQ self node + reward]> (Q self)
      else <[node := getQ self node - reward]> (Q self) in
    mkMCTS (agents self) Q' N' (children self) (exploration_weight self).

Definition _backpropagate (self : MCTS) (path : list Node) (reward : Z)
      : MCTS :=
    fold_left (backpropagate_node reward) (rev path) self.

(** *** do_rollout *)

Definition do_rollout (fuel : nat) (self : MCTS) (node : Node)
      : result MCTS :=
    path ← _select fuel self node [];
    match last path with
    | None => Raise IndexError
    | Some leaf =>
        let self := _expand self leaf in
        reward ← _simulate fuel self leaf;
        Ok (_backpropagate self path reward)
    end.

(** [k] calls of [do_rollout] on the same root. *)
Fixpoint rollouts (fuel : nat) (k : nat) (self : MCTS) (root : Node)
      : result MCTS :=
    match k with
    | O => Ok self
    | S k' =>
        self' ← rollouts fuel k' self root;
        do_rollout fuel self' root
    end.
End MCTS.

Arguments MCTS State Action Node {_ _}.


(* ===================================================================== *)
(** ** Several searchers in one interpreter

    An [MCTS] object lives at an address of the interpreter's object store.
    [__init__] builds its three dictionaries afresh and stores them in the
    object; no method of the class hands them out or rebinds them, so the
    cell of an object holds its tables. *)

Section Instances.
Context `{Game State Action Node}.




End Instances.

(* ===================================================================== *)
(** ** Two small games used as concrete inputs *)

Inductive TNode : Type := t_root | t_a | t_b.

#[global] Instance TNode_eq_dec : EqDecision TNode.
Proof. solve_decision. Defined.

Definition TNode_code (n : TNode) : nat :=
  match n with t_root => 0 | t_a => 1 | t_b => 2 end%nat.

Definition TNode_decode (c : nat) : option TNode :=
  match c with
  | 0 => Some t_root
  | 1 => Some t_a
  | 2 => Some t_b
  | _ => None
  end%nat.

#[global] Instance TNode_countable : Countable TNode.
Proof.
  refine (inj_countable TNode_code TNode_decode _).
  intros []; reflexivity.
Defined.

(** A game with a transposition: from [t_root] one can move to [t_a] or to
    [t_b], from [t_a] to [t_b]; [t_b] is won by FIRST.  A state is its own
    node. *)
Definition dag_game : Game TNode unit TNode := {|
  winner s := match s with t_b => Some FIRST | _ => None end;
  current_player_id _ := FIRST;
  clone s := s;
  act s _ := match s with
             | t_root => inl t_a
             | t_a => inl t_b
             | t_b => inr MalformedActionError
             end;
  node_state n := n;
  is_terminal n := match n with t_b => true | _ => false end;
  find_children n := match n with
                     | t_root => [t_a; t_b]
                     | t_a => [t_b]
                     | t_b => []
                     end;
  find_random_child n := match n with t_root => t_a | _ => t_b end;
|}.

(** A game whose graph is a tree: from [t_root] to [t_a] (won by FIRST) or
    [t_b] (won by SECOND). *)
Definition tree_game : Game TNode unit TNode := {|
  winner s := match s with
              | t_root => None
              | t_a => Some FIRST
              | t_b => Some SECOND
              end;
  current_player_id s := match s with t_root => FIRST | _ => SECOND end;
  clone s := s;
  act s _ := match s with
             | t_root => inl t_a
             | _ => inr MalformedActionError
             end;
  node_state n := n;
  is_terminal n := match n with t_root => false | _ => true end;
  find_children n := match n with t_root => [t_a; t_b] | _ => [] end;
  find_random_child n := match n with t_root => t_b | _ => n end;
|}.

(** The agents of the small games: the only action. *)
Definition unit_agents : PlayerOrder → TNode → unit := λ _ _, tt.

(* ===================================================================== *)
(** ** Notions used to state the properties *)

Section Notions.
Context `{Game State Action Node}.

(** The reward as seen by the player to move at [node]. *)
Definition signed_reward (reward : Z) (node : Node) : Z :=
  if decide (current_player_id (node_state node) = FIRST)
  then reward else - reward.

(** How many times [x] occurs on [path]. *)
Definition visits (x : Node) (path : list Node) : Z :=
  Z.of_nat (length (filter (λ y, y = x) path)).

(** One turn of the simulation loop: the game is undecided and the agent of
    the player to move plays a legal action. *)
Definition plays (self : MCTS State Action Node) (game game' : State) : Prop :=
  winner game = None ∧
  act game (agents self (current_player_id game) game) = inl game'.

(** [y] is listed by [find_children] of [x]. *)
Definition child_of (x y : Node) : Prop := y ∈ find_children x.

(** The sum of the visit counts over a list of nodes. *)
Definition sum_N (self : MCTS State Action Node) (l : list Node) : Z :=
  foldr Z.add 0 (getN self <$> l).
End Notions.

Section Scores.
Context `{Game State Action Node}.

(** The UCT score of child [n] with parent [p]:
    [Q[n]/N[n] + c * sqrt(ln(N[p]) / N[n])]. *)
Definition uct_score (self : MCTS State Action Node) (p n : Node) : R :=
  (IZR (getQ self n) / IZR (getN self n)
   + exploration_weight self
     * sqrt (ln (IZR (getN self p)) / IZR (getN self n)))%R.

(** The average reward of [n]: [Q[n]/N[n]]. *)
Definition average_reward (self : MCTS State Action Node) (n : Node) : R :=
  (IZR (getQ self n) / IZR (getN self n))%R.
End Scores.


(** The searcher before any rollout, and the tables of [dag_game] after
    one to five rollouts from [t_root], written as the expansion and the
    backpropagation each rollout performs. *)
Definition toy_init : MCTS TNode unit TNode := MCTS_init unit_agents 1%R.

Definition dag_s1 : MCTS TNode unit TNode :=
  @_backpropagate _ _ _ _ _ dag_game
    (@_expand _ _ _ _ _ dag_game toy_init t_root) [t_root] 1.

Definition dag_s2 : MCTS TNode unit TNode :=
  @_backpropagate _ _ _ _ _ dag_game
    (@_expand _ _ _ _ _ dag_game dag_s1 t_b) [t_root; t_b] 1.

Definition dag_s3 : MCTS TNode unit TNode :=
  @_backpropagate _ _ _ _ _ dag_game
    (@_expand _ _ _ _ _ dag_game dag_s2 t_a) [t_root; t_a] 1.

Definition dag_s4 : MCTS TNode unit TNode :=
  @_backpropagate _ _ _ _ _ dag_game dag_s3 [t_root; t_a; t_b] 1.

Definition dag_s5 : MCTS TNode unit TNode :=
  @_backpropagate _ _ _ _ _ dag_game dag_s4 [t_root; t_a; t_b] 1.


(* ===================================================================== *)
(** ** Notions about the tables along a run of rollouts *)

Section RunNotions.
Context `{Game State Action Node}.

(** [l] descends from [x] one move at a time. *)
Fixpoint chain (x : Node) (l : list Node) : Prop :=
  match l with
  | [] => True
  | y :: l' => child_of x y ∧ chain y l'
  end.

(** Every list stored in [children] is the [find_children()] of its key. *)
Definition tables_consistent (self : MCTS State Action Node) : Prop :=
  ∀ n l, children self !! n = Some l → l = find_children n.

(** Every key of [children] has been visited. *)
Definition keys_visited (self : MCTS State Action Node) : Prop :=
  ∀ n, n ∈ dom (children self) → 1 ≤ getN self n.

(** The keys of [children] that are not above [node] for [rank]. *)
Definition pending (rank : Node → nat) (self : MCTS State Action Node)
    (node : Node) : gset Node :=
  filter (λ x, rank node ≤ rank x)%nat (dom (children self)).

(** The number of visits a path pays to the nodes of a list. *)
Definition sum_visits (l path : list Node) : Z :=
  foldr Z.add 0 ((λ c, visits c path) <$> l).
End RunNotions.

Section RunInvariant.
Context `{Game State Action Node}.

(** The descent of [_select] as a relation: [descent self node rest] when
    the loop entered at [node] appends [node] and then [rest] to the path
    before it returns. *)
Inductive descent (self : MCTS State Action Node)
    : Node → list Node → Prop :=
  | descent_stop node :
      node ∉ dom (children self) ∨ get_children self node = []
        ∨ is_terminal node = true →
      descent self node []
  | descent_leaf node n :
      node ∈ dom (children self) → get_children self node ≠ [] →
      is_terminal node = false →
      last (filter (λ item, ¬ item ∈ dom (children self))
                   (get_children self node)) = Some n →
      descent self node [n]
  | descent_step node n rest :
      node ∈ dom (children self) → get_children self node ≠ [] →
      is_terminal node = false →
      last (filter (λ item, ¬ item ∈ dom (children self))
                   (get_children self node)) = None →
      _uct_select self node = Ok n →
      descent self n rest →
      descent self node (n :: rest).

(** The facts kept from one rollout to the next, [k] rollouts after the
    creation of a searcher with agents [agents0]. *)
Definition run_inv (agents0 : PlayerOrder → State → Action)
    (k : nat) (self : MCTS State Action Node) : Prop :=
  tables_consistent self
  ∧ keys_visited self
  ∧ (∀ n, 0 ≤ getN self n)
  ∧ agents self = agents0
  ∧ (size (dom (children self)) ≤ k)%nat.
End RunInvariant.

(* ===================================================================== *)
(** ** The states a searcher can be in *)

Section Reachable.
Context `{Game State Action Node}.

(** The searchers obtained from a fresh one by calls of [do_rollout] that
    returned, from whatever nodes.  ([choose] leaves the tables as they
    are.) *)
Inductive reachable (agents0 : PlayerOrder → State → Action) (w : R)
    : MCTS State Action Node → Prop :=
  | reachable_init : reachable agents0 w (MCTS_init agents0 w)
  | reachable_rollout self fuel node self' :
      reachable agents0 w self →
      do_rollout fuel self node = Ok self' →
      reachable agents0 w self'.

(** The total reward of a node is within its visit count. *)
Definition rewards_bounded (self : MCTS State Action Node) : Prop :=
  ∀ n, Z.abs (getQ self n) ≤ getN self n.

(** The nodes of a list but the last. *)
Definition but_last (l : list Node) : list Node :=
  take (length l - 1) l.
End Reachable.

(* ===================================================================== *)
(** ** [enums.py]: Phase *)

Inductive Phase : Type := DRAFT | BATTLE | ENDED.

#[global] Instance Phase_eq_dec : EqDecision Phase.
Proof. solve_decision. Defined.

(* ===================================================================== *)
(** ** [rewards.py]: the health rewards and [parse_reward] *)

Section HealthRewards.
Context {State : Type}.
(** [state.players[p].health]; [players] holds the two players and is
    indexed by the value of [p]. *)
Variable health : State → PlayerOrder → Z.

(** [PlayerHealthRewardFunction.calculate] *)
Definition player_health_calculate (state : State)
    (for_player : PlayerOrder) : R :=
  (IZR (health state for_player) / 30)%R.

(** [OpponentHealthRewardFunction.calculate]: the unary minus applies to
    [max(0, health)] before the division. *)
Definition opponent_health_calculate (state : State)
    (for_player : PlayerOrder) : result R :=
  opp ← opposing for_player;
  Ok (IZR (- Z.max 0 (health state opp)) / 30)%R.
End HealthRewards.

(** The three reward classes registered in [available_rewards]. *)
Inductive RewardClass : Type :=
  | WinLossRewardFunction
  | PlayerHealthRewardFunction
  | OpponentHealthRewardFunction.

Definition available_rewards : list (string * RewardClass) :=
  [("win-loss"%string, WinLossRewardFunction);
   ("player-health"%string, PlayerHealthRewardFunction);
   ("opponent-health"%string, OpponentHealthRewardFunction)].

(** [str.lower] on ASCII text: the letters A to Z move to a to z, every
    other character stays. *)
Definition lower_char (c : Ascii.ascii) : Ascii.ascii :=
  let n := Ascii.nat_of_ascii c in
  if (65 <=? n)%nat && (n <=? 90)%nat
  then Ascii.ascii_of_nat (n + 32) else c.

Fixpoint lower (s : string) : string :=
  match s with
  | EmptyString => EmptyString
  | String c s' => String (lower_char c) (lower s')
  end.

(** [s.replace(" ", "-")]: the space is character 32, the hyphen 45. *)
Fixpoint replace_space (s : string) : string :=
  match s with
  | EmptyString => EmptyString
  | String c s' =>
      String (if Ascii.eqb c (Ascii.ascii_of_nat 32)
              then Ascii.ascii_of_nat 45 else c)
             (replace_space s')
  end.

(** [d[key]] on a dictionary literal; [None] stands for [KeyError]. *)
Fixpoint dict_get {V} (d : list (string * V)) (key : string) : option V :=
  match d with
  | [] => None
  | (k, v) :: d' => if String.eqb k key then Some v else dict_get d' key
  end.

Definition parse_reward (reward_name : string) : option RewardClass :=
  dict_get available_rewards (replace_space (lower reward_name)).

(** The text holds ASCII characters only. *)
Fixpoint is_ascii (s : string) : Prop :=
  match s with
  | EmptyString => True
  | String c s' => (Ascii.nat_of_ascii c < 128)%nat ∧ is_ascii s'
  end.

(* ===================================================================== *)
(** ** [runner.py]: evaluate and the end of run

    Bots are taken at their [act]; [reset] has nothing to reset then.  The
    module-level [wins_by_p0] is passed along as the pair
    [(wins, games)].  Its updates are made under the lock; the games of
    one pool worker run one after the other, which is how [run_games]
    runs them. *)

Section Runner.
Context `{Game State Action Node}.
(** [game.phase] and [engine.Game(seed=...)] *)
Variable phase : State → Phase.
Variable new_game : Z → State.

(** A player as [run] builds it: the draft bot and the battle bot. *)
Definition player : Type := (State → Action) * (State → Action).

(** [bots[game.current_player.id]] on a pair of bots. *)
Definition pick {A} (bots : A * A) (p : PlayerOrder) : A :=
  match p with FIRST => bots.1 | SECOND => bots.2 end.

(** The tuple handed to [evaluate]: five items from the pool branch of
    [run], four from its profile branch. *)
Inductive eval_params : Type :=
  | Params5 (game_id : Z) (player_1 player_2 : player) (seed : Z)
            (silent : bool)
  | Params4 (game_id : Z) (player_1 player_2 : player) (seed : Z).

(** The bot that moves in [game]. *)
Definition bot_to_move (draft_bots battle_bots : (State → Action) * (State → Action))
    (game : State) : State → Action :=
  if decide (phase game = DRAFT)
  then pick draft_bots (current_player_id game)
  else pick battle_bots (current_player_id game).

(** The [while game.winner is None] loop of [evaluate]. *)
Fixpoint play_game (fuel : nat)
    (draft_bots battle_bots : (State → Action) * (State → Action))
    (game : State) : result State :=
  match fuel with
  | O => OutOfFuel
  | S fuel' =>
      match winner game with
      | None =>
          let bot := bot_to_move draft_bots battle_bots game in
          match act game (bot game) with
          | inl game' => play_game fuel' draft_bots battle_bots game'
          | inr k => Raise (EngineError k)
          end
      | Some _ => Ok game
      end
  end.

(** [evaluate]: unpacking four items into five names raises [ValueError];
    the result is the winner and the updated [wins_by_p0]. *)
Definition evaluate (fuel : nat) (params : eval_params)
    (wins_by_p0 : Z * Z) : result (option PlayerOrder * (Z * Z)) :=
  match params with
  | Params4 _ _ _ _ => Raise ValueError
  | Params5 game_id player_1 player_2 seed silent =>
      let draft_bots := (player_1.1, player_2.1) in
      let battle_bots := (player_1.2, player_2.2) in
      game ← play_game fuel draft_bots battle_bots
                       (new_game (seed + game_id));
      let wins :=
        wins_by_p0.1
        + (if decide (winner game = Some FIRST) then 1 else 0) in
      let games := wins_by_p0.2 + 1 in
      (* ratio = 100 * wins / games *)
      if games =? 0 then Raise ZeroDivisionError
      else Ok (winner game, (wins, games))
  end.

(** [range(n)] *)
Definition py_range (n : Z) : list Z := Z.of_nat <$> seq 0 (Z.to_nat n).

(** The calls [evaluate(params)] for a list of tuples, in order. *)
Fixpoint run_games (fuel : nat) (ps : list eval_params)
    (wins_by_p0 : Z * Z) : result (Z * Z) :=
  match ps with
  | [] => Ok wins_by_p0
  | p :: ps' =>
      '(_, wins_by_p0') ← evaluate fuel p wins_by_p0;
      run_games fuel ps' wins_by_p0'
  end.

(** The end of [run]: [ratio = 100 * wins / games]. *)
Definition final_ratio (wins_by_p0 : Z * Z) : result R :=
  if wins_by_p0.2 =? 0 then Raise ZeroDivisionError
  else Ok (IZR (100 * wins_by_p0.1) / IZR wins_by_p0.2)%R.


Definition run_profile (fuel : nat) (games : Z) (player_1 player_2 : player)
    (seed : Z) : result R :=
  wins_by_p0 ← run_games fuel
    ((λ i, Params4 i player_1 player_2 seed) <$> py_range games)
    (0, 0);
  final_ratio wins_by_p0.

(** One turn of the loop of [evaluate]. *)
Definition match_turn
    (draft_bots battle_bots : (State → Action) * (State → Action))
    (game game' : State) : Prop :=
  winner game = None
  ∧ act game (bot_to_move draft_bots battle_bots game game) = inl game'.
End Runner.

Arguments player : clear implicits.

(** A match for the small games: a game is drafted at [t_root], where
    every seed starts it, and over everywhere else. *)
Definition toy_phase (s : TNode) : Phase :=
  match s with t_root => DRAFT | _ => ENDED end.

Definition toy_new_game (seed : Z) : TNode := t_root.

Definition toy_player : player TNode unit :=
  (λ _, tt, λ _, tt).

(* ===================================================================== *)
(** ** [interleaved-self-play.py]: [train_and_eval] *)

(** The loop [while n_steps % nminibatches != 0: nminibatches -= 1]. *)
Fixpoint fit_nminibatches (fuel : nat) (n_steps nminibatches : Z)
    : result Z :=
  match fuel with
  | O => OutOfFuel
  | S fuel' =>
      if nminibatches =? 0 then Raise ZeroDivisionError
      else if negb (n_steps mod nminibatches =? 0)
           then fit_nminibatches fuel' n_steps (nminibatches - 1)
           else Ok nminibatches
  end.

(** [params['nminibatches']] once [train_and_eval] has made it fit
    [params['n_steps']]: first the [min], then the loop. *)
Definition ensure_nminibatches (fuel : nat) (n_steps nminibatches : Z)
    : result Z :=
  fit_nminibatches fuel n_steps (Z.min nminibatches n_steps).

(** A [for] loop whose body may raise. *)
Fixpoint for_each {A S : Type} (body : S → A → result S) (s : S)
    (l : list A) : result S :=
  match l with
  | [] => Ok s
  | a :: l' => s' ← body s a; for_each body s' l'
  end.

(** The body of the loop over [i] in the evaluation made by
    [make_evaluate]: [episode_rewards[i][-1] += rewards[i]], then
    [episode_rewards[i].append(0.0)] when [dones[i]].  Every subscript out
    of range raises [IndexError]. *)
Definition record_env (rewards : list R) (dones : list bool)
    (episode_rewards : list (list R)) (i : nat) : result (list (list R)) :=
  match episode_rewards !! i with
  | None => Raise IndexError
  | Some episode =>
      match episode, rewards !! i with
      | [], _ | _, None => Raise IndexError
      | _ :: _, Some r =>
          let episode :=
            alter (λ x, x + r)%R (length episode - 1)%nat episode in
          match dones !! i with
          | None => Raise IndexError
          | Some done_i =>
              let episode :=
                if done_i : bool then episode ++ [0%R] else episode in
              Ok (<[i := episode]> episode_rewards)
          end
      end
  end.

(** One step of the evaluation: the loop over [range(eval_env.num_envs)]
    on the arrays [rewards] and [dones] that [eval_env.step] returned. *)
Definition record_step (num_envs : nat) (episode_rewards : list (list R))
    (outcome : list R * list bool) : result (list (list R)) :=
  for_each (record_env outcome.1 outcome.2) episode_rewards
           (seq 0 num_envs).

(** [all_rewards] at the end of the evaluation, from the outcomes of its
    steps in order: [episode_rewards] starts as one list [[0.0]] for each
    environment and is flattened at the end. *)
Definition all_rewards (num_envs : nat)
    (outcomes : list (list R * list bool)) : result (list R) :=
  episode_rewards ← for_each (record_step num_envs)
                             (replicate num_envs [0%R]) outcomes;
  Ok (concat episode_rewards).

(** The sum of a list of rewards, and over the steps of an evaluation the
    rewards received and the episodes finished. *)
Definition sum_R (l : list R) : R := foldr Rplus 0%R l.

Definition rewards_total (outcomes : list (list R * list bool)) : R :=
  sum_R ((λ o, sum_R o.1) <$> outcomes).

Definition dones_total (outcomes : list (list R * list bool)) : nat :=
  sum_list ((λ o, length (filter (λ d, d = true) o.2)) <$> outcomes).

(** Every list of [episode_rewards] holds the reward of an episode that
    is still running. *)
Definition episodes_open (eps : list (list R)) : Prop :=
  Forall (λ ep, ep ≠ []) eps.

(* ===================================================================== *)
(** * Properties *)

(** Closes a decidable goal about concrete data by evaluation. *)
Ltac by_decide := apply (bool_decide_unpack _); vm_compute; exact I.
(* ===================================================================== *)
(** ** The two families of error kinds *)

(** C9: [FullHandError], [EmptyDeckError] and [WardShieldError] are
    subclasses of [GameError] and not of [ActionError];
    [NotEnoughManaError], [FullLaneError] and [MalformedActionError] are
    subclasses of [ActionError] and not of [GameError]; each of the six
    kinds is in exactly one of the two families, and neither family is a
    subclass of the other. *)
Theorem error_kinds_two_families :
  Forall (λ k, issubclass k GameError = true ∧ issubclass k ActionError = false)
         [FullHandError; EmptyDeckError; WardShieldError]
  ∧ Forall (λ k, issubclass k ActionError = true ∧ issubclass k GameError = false)
           [NotEnoughManaError; FullLaneError; MalformedActionError]
  ∧ Forall (λ k, xorb (issubclass k GameError) (issubclass k ActionError) = true)
           error_kinds
  ∧ issubclass GameError ActionError = false
  ∧ issubclass ActionError GameError = false.
Proof.
  repeat split; repeat constructor.
Qed.

(* ===================================================================== *)
(** ** The win/loss reward *)

Section RewardFacts.
Context `{Game State Action Node}.

Lemma opposing_FIRST : opposing FIRST = Ok SECOND.
Proof. reflexivity. Qed.

Lemma opposing_SECOND : opposing SECOND = Ok FIRST.
Proof. reflexivity. Qed.

Lemma playout_unit fuel self game r :
  playout fuel self game = Ok r → r = 1 ∨ r = -1.
Proof.
  revert game. induction fuel as [|fuel IH]; intros game; simpl; [done|].
  destruct (winner game) as [w|].
  - intros [= <-]. destruct (decide (w = FIRST)); auto.
  - destruct (act _ _); [apply IH | done].
Qed.

(** C10: [WinLossRewardFunction.calculate(state, p)] returns 1 when
    [state.winner] is [p], -1 when it is the player opposing [p], and 0 in
    every other case, in particular when the state has no winner; the
    opposing player always exists and differs from [p].  The reward of
    [_simulate], by contrast, is never 0. *)
Theorem calculate_win_loss (state : State) (p : PlayerOrder) :
  (winner state = Some p → calculate state p = Ok 1)
  ∧ (∀ o, opposing p = Ok o → winner state = Some o →
       calculate state p = Ok (-1))
  ∧ (winner state ≠ Some p →
     (∀ o, opposing p = Ok o → winner state ≠ Some o) →
       calculate state p = Ok 0)
  ∧ (winner state = None → calculate state p = Ok 0)
  ∧ (∃ o, opposing p = Ok o ∧ o ≠ p)
  ∧ (∀ fuel self node r, _simulate fuel self node = Ok r → r ≠ 0).
Proof.
  unfold calculate, winner_is.
  repeat split.
  - intros ->. by rewrite bool_decide_eq_true_2.
  - intros o Ho Hw.
    destruct p; vm_compute in Ho; injection Ho as <-; rewrite Hw; reflexivity.
  - intros Hp Ho. rewrite bool_decide_eq_false_2 by done.
    destruct p; simpl; rewrite bool_decide_eq_false_2; try done;
      by apply Ho.
  - intros ->. destruct p; reflexivity.
  - destruct p; eexists; split; try reflexivity; done.
  - intros fuel self node r Hr ->.
    apply playout_unit in Hr. lia.
Qed.
End RewardFacts.

Lemma calculate_win_loss_witness :
  @calculate _ _ _ _ _ tree_game t_a FIRST = Ok 1
  ∧ @calculate _ _ _ _ _ tree_game t_b FIRST = Ok (-1)
  ∧ @calculate _ _ _ _ _ tree_game t_root FIRST = Ok 0.
Proof.
  pose proof (@calculate_win_loss _ _ _ _ _ tree_game t_a FIRST) as (Ha & _).
  pose proof (@calculate_win_loss _ _ _ _ _ tree_game t_b FIRST) as (_ & Hb & _).
  pose proof (@calculate_win_loss _ _ _ _ _ tree_game t_root FIRST)
    as (_ & _ & _ & Hr & _).
  split; [apply Ha; reflexivity|].
  split; [apply (Hb SECOND); reflexivity|].
  apply Hr; reflexivity.
Defined.

(* ===================================================================== *)
(** ** Expansion *)

Section ExpandFacts.
Context `{Game State Action Node}.
Implicit Types (self : MCTS State Action Node) (node : Node).

Lemma expanded_true self node :
  expanded self node = true ↔ is_Some (children self !! node).
Proof.
  unfold expanded. rewrite bool_decide_eq_true. apply elem_of_dom.
Qed.

Lemma expanded_false self node :
  expanded self node = false ↔ children self !! node = None.
Proof.
  unfold expanded. rewrite bool_decide_eq_false. apply not_elem_of_dom.
Qed.

Lemma expanded_expand self node : expanded (_expand self node) node = true.
Proof.
  unfold _expand. destruct (expanded self node) eqn:E; [done|].
  apply expanded_true. simpl. rewrite lookup_insert_eq. eauto.
Qed.

(** C7: [_expand] does nothing on a node that is already a key of
    [children]; otherwise it stores the node's [find_children()] under the
    node and leaves [Q] and [N] alone; a second call in a row changes
    nothing more. *)
Theorem expand_idempotent self node :
  (expanded self node = true → _expand self node = self)
  ∧ (expanded self node = false →
       children (_expand self node)
         = <[node := find_children node]> (children self)
       ∧ Q (_expand self node) = Q self
       ∧ N (_expand self node) = N self)
  ∧ _expand (_expand self node) node = _expand self node.
Proof.
  split; [|split].
  - unfold _expand. by intros ->.
  - unfold _expand. by intros ->.
  - generalize (expanded_expand self node).
    unfold _expand at 2. by intros ->.
Qed.
End ExpandFacts.

Lemma expand_idempotent_witness :
  let g := dag_game in
  let self := MCTS_init unit_agents 1%R in
  children (_expand self t_root) !! t_root = Some [t_a; t_b]
  ∧ _expand (_expand self t_root) t_root = _expand self t_root.
Proof.
  intros g self.
  destruct (@expand_idempotent _ _ _ _ _ g self t_root) as (_ & Hnew & Hidem).
  split; [|exact Hidem].
  destruct Hnew as (-> & _); reflexivity.
Defined.

(* ===================================================================== *)
(** ** Backpropagation *)

Section BackpropFacts.
Context `{Game State Action Node}.
Implicit Types (self : MCTS State Action Node) (node x : Node).

Lemma backpropagate_node_N reward self node x :
  getN (backpropagate_node reward self node) x
  = getN self x + (if decide (node = x) then 1 else 0).
Proof.
  unfold getN at 1. simpl. destruct (decide (node = x)) as [->|Hne].
  - by rewrite lookup_insert_eq.
  - rewrite lookup_insert_ne by done. unfold getN. lia.
Qed.

Lemma backpropagate_node_Q reward self node x :
  getQ (backpropagate_node reward self node) x
  = getQ self x + (if decide (node = x) then signed_reward reward x else 0).
Proof.
  unfold getQ at 1, signed_reward. simpl.
  destruct (decide (node = x)) as [->|Hne].
  - destruct (decide (_ = FIRST)); rewrite lookup_insert_eq; simpl; lia.
  - destruct (decide (_ = FIRST)); rewrite lookup_insert_ne by done;
      unfold getQ; lia.
Qed.

Lemma backpropagate_node_other reward self node x :
  node ≠ x →
  N (backpropagate_node reward self node) !! x = N self !! x
  ∧ Q (backpropagate_node reward self node) !! x = Q self !! x.
Proof.
  intros Hne. simpl. destruct (decide (_ = FIRST));
    by rewrite !lookup_insert_ne.
Qed.

Lemma backpropagate_node_frame reward self node :
  children (backpropagate_node reward self node) = children self
  ∧ agents (backpropagate_node reward self node) = agents self
  ∧ exploration_weight (backpropagate_node reward self node)
    = exploration_weight self.
Proof. done. Qed.

Lemma visits_nil x : visits x [] = 0.
Proof. reflexivity. Qed.

Lemma visits_app x (l1 l2 : list Node) :
  visits x (l1 ++ l2) = visits x l1 + visits x l2.
Proof. unfold visits. rewrite filter_app, length_app. lia. Qed.

Lemma visits_cons x y (l : list Node) :
  visits x (y :: l) = (if decide (y = x) then 1 else 0) + visits x l.
Proof.
  unfold visits. rewrite filter_cons.
  destruct (decide (y = x)); simpl length; lia.
Qed.

Lemma visits_rev x (l : list Node) : visits x (rev l) = visits x l.
Proof.
  induction l as [|y l IH]; [done|].
  simpl rev. rewrite visits_app, IH, !visits_cons, visits_nil. lia.
Qed.

Lemma visits_nonneg x (l : list Node) : 0 ≤ visits x l.
Proof. unfold visits. lia. Qed.

Lemma visits_not_in x (l : list Node) : x ∉ l → visits x l = 0.
Proof.
  induction l as [|y l IH]; [done|].
  rewrite not_elem_of_cons, visits_cons. intros [Hne Hl].
  rewrite decide_False by done. rewrite IH by done. lia.
Qed.

Lemma visits_in x (l : list Node) : x ∈ l → 1 ≤ visits x l.
Proof.
  induction l as [|y l IH]; [by intros ?%elem_of_nil|].
  rewrite visits_cons. pose proof (visits_nonneg x l).
  intros [->|Hl]%elem_of_cons.
  - rewrite decide_True by done. lia.
  - specialize (IH Hl). destruct (decide (y = x)); lia.
Qed.

Lemma visits_NoDup x (l : list Node) : NoDup l → x ∈ l → visits x l = 1.
Proof.
  induction 1 as [|y l Hy Hl IH]; [by intros ?%elem_of_nil|].
  rewrite visits_cons. intros [->|Hx]%elem_of_cons.
  - rewrite decide_True by done. rewrite visits_not_in by done. lia.
  - rewrite decide_False by (intros ->; done). rewrite IH by done. lia.
Qed.

(** The loop over any list of nodes, in the order given. *)
Lemma backpropagate_loop reward (l : list Node) self x :
  let self' := fold_left (backpropagate_node reward) l self in
  getN self' x = getN self x + visits x l
  ∧ getQ self' x = getQ self x + visits x l * signed_reward reward x
  ∧ (x ∉ l → N self' !! x = N self !! x ∧ Q self' !! x = Q self !! x)
  ∧ children self' = children self
  ∧ agents self' = agents self
  ∧ exploration_weight self' = exploration_weight self.
Proof.
  revert self. induction l as [|y l IH]; intros self; simpl.
  - rewrite visits_nil. repeat split; lia.
  - destruct (IH (backpropagate_node reward self y))
      as (HN & HQ & Hother & Hch & Hag & Hw).
    rewrite HN, HQ, Hch, Hag, Hw, visits_cons.
    rewrite backpropagate_node_N, backpropagate_node_Q.
    split; [destruct (decide (y = x)); lia|].
    split; [destruct (decide (y = x)); lia|].
    split; [|done].
    intros [Hne Hl]%not_elem_of_cons.
    destruct (Hother Hl) as [-> ->].
    by apply backpropagate_node_other.
Qed.

(** [_backpropagate] is that loop over the reversed path. *)
Lemma backpropagate_counts self (path : list Node) (reward : Z) x :
  let self' := _backpropagate self path reward in
  getN self' x = getN self x + visits x path
  ∧ getQ self' x = getQ self x + visits x path * signed_reward reward x
  ∧ (x ∉ path → N self' !! x = N self !! x ∧ Q self' !! x = Q self !! x)
  ∧ children self' = children self
  ∧ agents self' = agents self.
Proof.
  intros self'. subst self'. unfold _backpropagate.
  destruct (backpropagate_loop reward (rev path) self x)
    as (HN & HQ & Hother & Hch & Hag & _).
  rewrite visits_rev in HN, HQ.
  split; [done|]. split; [done|]. split; [|done].
  intros Hx. apply Hother.
  by rewrite list_elem_of_In, <- in_rev, <- list_elem_of_In.
Qed.
End BackpropFacts.

(* ===================================================================== *)
(** ** Simulation *)

Section SimulateFacts.
Context `{Game State Action Node}.
Implicit Types (self : MCTS State Action Node) (game : State).

(** The reward of a decided game. *)
Lemma playout_decided fuel self game w :
  winner game = Some w →
  playout (S fuel) self game = Ok (if decide (w = FIRST) then 1 else -1).
Proof. intros Hw. simpl. by rewrite Hw. Qed.

(** An undecided game takes one turn of the loop. *)
Lemma playout_turn fuel self game game' :
  plays self game game' →
  playout (S fuel) self game = playout fuel self game'.
Proof. intros [Hw Hact]. simpl. by rewrite Hw, Hact. Qed.

Lemma playout_sound fuel self game r :
  playout fuel self game = Ok r →
  ∃ n final w, (n < fuel)%nat
    ∧ nsteps (plays self) n game final
    ∧ winner final = Some w
    ∧ r = if decide (w = FIRST) then 1 else -1.
Proof.
  revert game. induction fuel as [|fuel IH]; intros game; simpl; [done|].
  destruct (winner game) as [w|] eqn:Hw.
  - intros [= <-]. exists 0%nat, game, w.
    split; [lia|]. split; [constructor|done].
  - destruct (act game _) as [game'|k] eqn:Hact; [|done].
    intros (n & final & w & Hn & Hsteps & Hfinal & ->)%IH.
    exists (S n), final, w. split; [lia|]. split; [|done].
    by apply nsteps_l with game'.
Qed.

Lemma playout_complete self n game final w :
  nsteps (plays self) n game final →
  winner final = Some w →
  ∀ fuel, (n < fuel)%nat →
    playout fuel self game = Ok (if decide (w = FIRST) then 1 else -1).
Proof.
  intros Hsteps Hw.
  induction Hsteps as [game|n game game' final Hplay _ IH];
    intros [|fuel] Hfuel; try lia.
  - by apply playout_decided.
  - rewrite (playout_turn _ _ _ game') by done. apply IH; [done|lia].
Qed.

(** C5: [_simulate] works on the clone of the leaf's state.  While the
    clone has no winner it asks the agent of the clone's current player
    for an action and applies it; once the clone has a winner it returns
    +1 if that winner is FIRST and -1 otherwise.  Conversely a play of
    that shape that reaches a decided state is what [_simulate] returns,
    given fuel for its turns. *)
Theorem simulate_spec self (leaf : Node) :
  (∀ fuel r, _simulate fuel self leaf = Ok r →
     ∃ n final w, (n < fuel)%nat
       ∧ nsteps (plays self) n (clone (node_state leaf)) final
       ∧ winner final = Some w
       ∧ r = (if decide (w = FIRST) then 1 else -1))
  ∧ (∀ n final w,
       nsteps (plays self) n (clone (node_state leaf)) final →
       winner final = Some w →
       ∀ fuel, (n < fuel)%nat →
         _simulate fuel self leaf
         = Ok (if decide (w = FIRST) then 1 else -1))
  ∧ (∀ fuel r, _simulate fuel self leaf = Ok r → r = 1 ∨ r = -1).
Proof.
  unfold _simulate. split; [|split].
  - intros fuel r. apply playout_sound.
  - intros n final w. apply playout_complete.
  - intros fuel r. apply playout_unit.
Qed.
End SimulateFacts.

Lemma simulate_spec_witness :
  let g := dag_game in
  let self := MCTS_init unit_agents 1%R in
  _simulate 3 self t_root = Ok 1.
Proof.
  intros g self.
  destruct (@simulate_spec _ _ _ _ _ g self t_root) as (_ & Hc & _).
  apply (Hc 2%nat t_b FIRST); [|reflexivity|lia].
  apply nsteps_l with t_a; [split; reflexivity|].
  apply nsteps_l with t_b; [split; reflexivity|].
  constructor.
Defined.

(* ===================================================================== *)
(** ** The assertion of [_uct_select] *)

Section AssertFacts.
Context `{Game State Action Node}.
Implicit Types (self : MCTS State Action Node) (node : Node).

Lemma result_bind_Ok {A B} (f : A → result B) (m : result A) (b : B) :
  m ≫= f = Ok b ↔ ∃ a, m = Ok a ∧ f a = Ok b.
Proof.
  destruct m as [a|e|]; simpl; split.
  - eauto.
  - by intros (? & [= <-] & ?).
  - done.
  - by intros (? & ? & ?).
  - done.
  - by intros (? & ? & ?).
Qed.


(** No unexplored child means every child is a key of [children]. *)
Lemma no_unexplored_all_expanded self (l : list Node) :
  last (filter (λ item, ¬ item ∈ dom (children self)) l) = None →
  forallb (expanded self) l = true.
Proof.
  rewrite last_None. intros Hnil.
  apply Is_true_true, forallb_True, Forall_forall. intros x Hx.
  apply Is_true_true. unfold expanded. apply bool_decide_eq_true.
  destruct (decide (x ∈ dom (children self))) as [|Hnot]; [done|].
  by destruct (filter_nil_not_elem_of _ _ x Hnil Hnot).
Qed.







End AssertFacts.


(* ===================================================================== *)
(** ** [max] with a key *)

Section PyMaxFacts.
Context {A K : Type} (gt : K → K → bool) (le : K → K → Prop).
Hypothesis le_refl : ∀ x, le x x.
Hypothesis le_trans : ∀ x y z, le x y → le y z → le x z.
Hypothesis gt_false : ∀ x y, gt x y = false → le x y.
Hypothesis gt_true : ∀ x y, gt x y = true → le y x.

Lemma max_from_keyed (key : A → K) (l : list A) (best : A) :
  let r := max_from gt best (key best) (map (λ n, (n, key n)) l) in
  (r = best ∨ r ∈ l)
  ∧ le (key best) (key r)
  ∧ ∀ c, c ∈ l → le (key c) (key r).
Proof.
  revert best. induction l as [|x l IH]; intros best; simpl.
  - split; [by left|]. split; [done|]. by intros c ?%elem_of_nil.
  - destruct (gt (key x) (key best)) eqn:Hgt.
    + destruct (IH x) as (Hin & Hle & Hall).
      split; [right; destruct Hin as [->|]; [left|by right]|].
      split; [eauto|].
      intros c [->|Hc]%elem_of_cons; auto.
    + destruct (IH best) as (Hin & Hle & Hall).
      split; [destruct Hin as [->|]; [by left|right; by right]|].
      split; [done|].
      intros c [->|Hc]%elem_of_cons; eauto.
Qed.

Lemma py_max_keyed (key : A → K) (x : A) (l : list A) :
  ∃ r, py_max gt (map (λ n, (n, key n)) (x :: l)) = Ok r
    ∧ r ∈ x :: l
    ∧ ∀ c, c ∈ x :: l → le (key c) (key r).
Proof.
  simpl. destruct (max_from_keyed key l x) as (Hin & Hle & Hall).
  eexists. split; [done|]. split.
  - destruct Hin as [->|]; [left|by right].
  - intros c [->|Hc]%elem_of_cons; auto.
Qed.
End PyMaxFacts.

(** When every other key equals the first one, the first item is
    returned. *)
Lemma max_from_tied {A K} (gt : K → K → bool) (key : A → K)
    (best : A) (l : list A) :
  (∀ k, gt k k = false) →
  (∀ c, c ∈ l → key c = key best) →
  max_from gt best (key best) (map (λ n, (n, key n)) l) = best.
Proof.
  intros Hirr. induction l as [|x l IH]; intros Hl; [done|].
  simpl. rewrite (Hl x) by left. rewrite Hirr.
  apply IH. intros c Hc. apply Hl. by right.
Qed.

Lemma Rgtb_false x y : Rgtb x y = false → (x <= y)%R.
Proof. unfold Rgtb. destruct (Rgt_dec x y); [done|]. intros _. lra. Qed.

Lemma Rgtb_true x y : Rgtb x y = true → (y <= x)%R.
Proof. unfold Rgtb. destruct (Rgt_dec x y); [|done]. intros _. lra. Qed.

Lemma Rgtb_irrefl x : Rgtb x x = false.
Proof. unfold Rgtb. destruct (Rgt_dec x x); [lra|done]. Qed.





(* ===================================================================== *)
(** ** choose *)

Section ChooseFacts.
Context `{Game State Action Node}.
Implicit Types (self : MCTS State Action Node) (node : Node).


Lemma score_Fin self n :
  getN self n ≠ 0 → score self n = Fin (average_reward self n).
Proof.
  intros Hn. unfold score. apply Z.eqb_neq in Hn. by rewrite Hn.
Qed.

End ChooseFacts.



(* ===================================================================== *)
(** ** UCT selection and the descent *)

Section SelectFacts.
Context `{Game State Action Node}.
Implicit Types (self : MCTS State Action Node) (node : Node).

Lemma ln_nonneg_of_count (n : Z) : 1 ≤ n → (0 <= ln (IZR n))%R.
Proof.
  intros Hn. destruct (decide (n = 1)) as [->|Hne].
  - rewrite ln_1. lra.
  - assert (Hlt : (1 < IZR n)%R) by (apply IZR_lt; lia).
    pose proof (ln_increasing 1 (IZR n) ltac:(lra) Hlt) as Hln.
    rewrite ln_1 in Hln. lra.
Qed.

(** With positive counts [uct] returns the UCT score. *)
Lemma uct_positive self p n :
  1 ≤ getN self p → 1 ≤ getN self n →
  uct self (ln (IZR (getN self p))) n = Ok (uct_score self p n).
Proof.
  intros Hp Hn. unfold uct.
  destruct (getN self n =? 0) eqn:E; [apply Z.eqb_eq in E; lia|].
  destruct (Rlt_dec _ 0) as [Hneg|_]; [|done].
  exfalso. pose proof (ln_nonneg_of_count _ Hp) as Hln.
  assert (Hpos : (0 < IZR (getN self n))%R) by (apply IZR_lt; lia).
  pose proof (Rle_mult_inv_pos _ _ Hln Hpos) as Hdiv.
  unfold Rdiv in Hneg. lra.
Qed.

Lemma uct_keys_positive self p (l : list Node) :
  1 ≤ getN self p → Forall (λ n, 1 ≤ getN self n) l →
  mapM (λ n, k ← uct self (ln (IZR (getN self p))) n; Ok (n, k)) l
  = Ok (map (λ n, (n, uct_score self p n)) l).
Proof.
  intros Hp. induction 1 as [|x l Hx _ IH]; [done|].
  simpl. rewrite (uct_positive self p x) by done. simpl.
  by rewrite IH.
Qed.

(** [_uct_select] on a node whose listed children are all keys of
    [children], when the counts involved are positive: the scan of [max]
    over the UCT scores. *)
Lemma uct_select_positive self node :
  Forall (λ n, n ∈ dom (children self)) (get_children self node) →
  1 ≤ getN self node →
  Forall (λ n, 1 ≤ getN self n) (get_children self node) →
  _uct_select self node
  = py_max Rgtb (map (λ n, (n, uct_score self node n))
                     (get_children self node)).
Proof.
  intros Hall Hp Hch. unfold _uct_select.
  assert (forallb (expanded self) (get_children self node) = true) as ->.
  { apply Is_true_true, forallb_True. eapply Forall_impl; [exact Hall|].
    intros x Hx. unfold expanded. by apply bool_decide_pack. }
  destruct (getN self node <=? 0) eqn:E; [apply Z.leb_le in E; lia|].
  by rewrite uct_keys_positive.
Qed.

Lemma uct_select_max self node :
  Forall (λ n, n ∈ dom (children self)) (get_children self node) →
  1 ≤ getN self node →
  Forall (λ n, 1 ≤ getN self n) (get_children self node) →
  get_children self node ≠ [] →
  ∃ n, _uct_select self node = Ok n
    ∧ n ∈ get_children self node
    ∧ ∀ c, c ∈ get_children self node →
        (uct_score self node c <= uct_score self node n)%R.
Proof.
  intros Hall Hp Hch Hne. rewrite uct_select_positive by done.
  destruct (get_children self node) as [|x l]; [done|].
  apply (py_max_keyed Rgtb Rle); auto using Rgtb_false, Rgtb_true.
  - intros; lra.
  - intros; lra.
Qed.

(** When all listed children have the same counts and rewards as the
    first one, the first one is selected. *)
Lemma uct_select_tied self node x (l : list Node) :
  get_children self node = x :: l →
  Forall (λ n, n ∈ dom (children self)) (x :: l) →
  1 ≤ getN self node → 1 ≤ getN self x →
  Forall (λ n, getN self n = getN self x ∧ getQ self n = getQ self x) l →
  _uct_select self node = Ok x.
Proof.
  intros Hch Hall Hp Hx Htied.
  rewrite uct_select_positive.
  - rewrite Hch. simpl. f_equal. apply max_from_tied; [apply Rgtb_irrefl|].
    intros c Hc. rewrite Forall_forall in Htied.
    destruct (Htied c Hc) as [HN HQ]. unfold uct_score. by rewrite HN, HQ.
  - by rewrite Hch.
  - done.
  - rewrite Hch. constructor; [done|]. eapply Forall_impl; [exact Htied|].
    intros c [-> _]. done.
Qed.

(** The three outcomes of one turn of the loop of [_select]. *)
Lemma select_stop fuel self node (path : list Node) :
  node ∉ dom (children self) ∨ get_children self node = []
    ∨ is_terminal node = true →
  _select (S fuel) self node path = Ok (path ++ [node]).
Proof.
  intros Hstop. simpl.
  assert (negb (expanded self node)
          || bool_decide (get_children self node = [])
          || is_terminal node = true) as ->; [|done].
  unfold expanded. destruct Hstop as [Hn|[He|Ht]].
  - by rewrite (bool_decide_eq_false_2 _ Hn).
  - rewrite (bool_decide_eq_true_2 _ He). by destruct (negb _).
  - rewrite Ht. by destruct (negb _), (bool_decide _).
Qed.

Lemma select_continue_cond self node :
  node ∈ dom (children self) → get_children self node ≠ [] →
  is_terminal node = false →
  negb (expanded self node) || bool_decide (get_children self node = [])
    || is_terminal node = false.
Proof.
  intros Hin Hne ->. unfold expanded.
  by rewrite (bool_decide_eq_true_2 _ Hin), (bool_decide_eq_false_2 _ Hne).
Qed.

Lemma select_new_leaf fuel self node (path : list Node) n :
  node ∈ dom (children self) → is_terminal node = false →
  last (filter (λ item, ¬ item ∈ dom (children self))
               (get_children self node)) = Some n →
  _select (S fuel) self node path = Ok ((path ++ [node]) ++ [n]).
Proof.
  intros Hin Ht Hlast. simpl.
  rewrite select_continue_cond; [by rewrite Hlast|done| |done].
  intros Hnil. by rewrite Hnil in Hlast.
Qed.

Lemma all_expanded_no_unexplored self (l : list Node) :
  Forall (λ n, n ∈ dom (children self)) l →
  filter (λ item, ¬ item ∈ dom (children self)) l = [].
Proof.
  induction 1 as [|x l Hx _ IH]; [done|].
  rewrite filter_cons, decide_False by (intros Hnot; by apply Hnot).
  exact IH.
Qed.

Lemma select_descend fuel self node (path : list Node) :
  node ∈ dom (children self) → get_children self node ≠ [] →
  is_terminal node = false →
  Forall (λ n, n ∈ dom (children self)) (get_children self node) →
  _select (S fuel) self node path
  = n ← _uct_select self node; _select fuel self n (path ++ [node]).
Proof.
  intros Hin Hne Ht Hall. simpl.
  rewrite select_continue_cond by done.
  by rewrite (all_expanded_no_unexplored _ _ Hall).
Qed.

End SelectFacts.



(* ===================================================================== *)
(** ** The path found by [_select] *)

Section PathFacts.
Context `{Game State Action Node}.
Implicit Types (self : MCTS State Action Node) (node : Node).

Lemma uct_keys_items self lnv (l : list Node) keys :
  mapM (λ n, k ← uct self lnv n; Ok (n, k)) l = Ok keys → keys.*1 = l.
Proof.
  revert keys. induction l as [|x l IH]; intros keys; simpl.
  - by intros [= <-].
  - destruct (uct self lnv x) as [k| |]; simpl; try done.
    destruct (mapM _ l) as [keys'| |]; simpl; try done.
    intros [= <-]. rewrite fmap_cons. simpl. f_equal. by apply IH.
Qed.

Lemma max_from_item {A K} (gt : K → K → bool) (l : list (A * K)) best kbest :
  max_from gt best kbest l = best ∨ max_from gt best kbest l ∈ l.*1.
Proof.
  revert best kbest. induction l as [|[x kx] l IH]; intros best kbest; simpl.
  - by left.
  - destruct (gt kx kbest).
    + right. destruct (IH x kx) as [->|Hin]; [left|by right].
    + destruct (IH best kbest) as [->|Hin]; [by left|right; by right].
Qed.

Lemma py_max_item {A K} (gt : K → K → bool) (l : list (A * K)) r :
  py_max gt l = Ok r → r ∈ l.*1.
Proof.
  destruct l as [|[x kx] l]; [done|]. simpl. intros [= <-].
  destruct (max_from_item gt l x kx) as [->|Hin]; [left|by right].
Qed.

(** Whatever [_uct_select] returns is a listed child of the node. *)
Lemma uct_select_item self node n :
  _uct_select self node = Ok n → n ∈ get_children self node.
Proof.
  unfold _uct_select. destruct (forallb _ _); [|done].
  destruct (_ <=? 0); [done|].
  intros (keys & Hkeys & Hmax)%result_bind_Ok.
  apply uct_keys_items in Hkeys. apply py_max_item in Hmax.
  by rewrite Hkeys in Hmax.
Qed.

Lemma get_children_consistent self node :
  tables_consistent self → node ∈ dom (children self) →
  get_children self node = find_children node.
Proof.
  intros Hc [l Hl]%elem_of_dom. unfold get_children. rewrite Hl. simpl.
  by apply (Hc node).
Qed.

(** [_select] returns the path built so far, then the node, then what the
    descent from the node appends. *)
Lemma select_descent fuel self node (path p : list Node) :
  _select fuel self node path = Ok p →
  ∃ rest, p = path ++ node :: rest ∧ descent self node rest.
Proof.
  revert node path. induction fuel as [|fuel IH]; intros node path; [done|].
  destruct (decide (node ∈ dom (children self))) as [Hin|Hout].
  2:{ rewrite select_stop by auto. intros [= <-]. exists [].
      split; [done|]. constructor. auto. }
  destruct (decide (get_children self node = [])) as [Hnil|Hne].
  { rewrite select_stop by auto. intros [= <-]. exists [].
    split; [done|]. constructor. auto. }
  destruct (is_terminal node) eqn:Ht.
  { rewrite select_stop by auto. intros [= <-]. exists [].
    split; [done|]. constructor. auto. }
  destruct (last (filter (λ item, ¬ item ∈ dom (children self))
                         (get_children self node))) as [n|] eqn:Hlast.
  - rewrite (select_new_leaf _ _ _ _ n) by done. intros [= <-].
    exists [n]. rewrite <- app_assoc. split; [done|].
    by apply descent_leaf.
  - simpl. rewrite select_continue_cond by done. rewrite Hlast.
    intros (n & Hsel & Hrest)%result_bind_Ok.
    apply IH in Hrest as (rest & -> & Hd).
    exists (n :: rest). rewrite <- app_assoc. split; [done|].
    by apply descent_step.
Qed.

(** The descent from a node is determined by the tables. *)
Lemma descent_functional self node (r1 r2 : list Node) :
  descent self node r1 → descent self node r2 → r1 = r2.
Proof.
  intros Hd1. revert r2.
  induction Hd1 as [node Hs|node n Hin Hne Ht Hl|node n rest Hin Hne Ht Hl Hu _ IH];
    intros r2 Hd2; inversion Hd2 as [? Hs'|? n' ? ? ? Hl'|? n' rest' ? ? ? Hl' Hu' Hd'];
    subst; try done; try (destruct Hs as [?|[?|?]]; congruence);
    try (destruct Hs' as [?|[?|?]]; congruence); try congruence.
  assert (n' = n) as -> by congruence. f_equal. by apply IH.
Qed.

(** From a key met along a descent, the descent is what is left of it. *)
Lemma descent_from_key self node (rest : list Node) x :
  descent self node rest → x ∈ node :: rest → x ∈ dom (children self) →
  ∃ l, descent self x l ∧ (length l ≤ length rest)%nat
    ∧ (x ∈ rest → (length l < length rest)%nat).
Proof.
  induction 1 as [node Hs|node n Hin Hne Ht Hl|node n rest Hin Hne Ht Hl Hu Hd IH];
    intros Hx Hkey.
  - apply list_elem_of_singleton in Hx as ->. exists [].
    split; [by constructor|]. split; [done|]. by intros ?%elem_of_nil.
  - apply elem_of_cons in Hx as [->|Hx].
    + exists [n]. split; [by apply descent_leaf|]. split; [done|].
      intros ->%list_elem_of_singleton.
      apply last_Some_elem_of, list_elem_of_filter in Hl as [Hnew _]. done.
    + apply list_elem_of_singleton in Hx as ->.
      apply last_Some_elem_of, list_elem_of_filter in Hl as [Hnew _]. done.
  - destruct (decide (x ∈ n :: rest)) as [Hx'|Hx'].
    + destruct (IH Hx' Hkey) as (l & Hl' & Hlen & _).
      exists l. split; [done|]. simpl. split; [lia|]. intros _. lia.
    + apply elem_of_cons in Hx as [->|Hx]; [|done].
      exists (n :: rest). split; [by apply descent_step|]. split; [done|].
      done.
Qed.

(** A descent never passes a node twice. *)
Lemma descent_NoDup self node (rest : list Node) :
  descent self node rest → NoDup (node :: rest).
Proof.
  intros Hd. induction Hd as [node Hs|node n Hin Hne Ht Hl|node n rest Hin Hne Ht Hl Hu Hd IH].
  - apply NoDup_singleton.
  - apply NoDup_cons. split; [|apply NoDup_singleton].
    intros ->%list_elem_of_singleton.
    apply last_Some_elem_of, list_elem_of_filter in Hl as [Hnew _]. done.
  - apply NoDup_cons. split; [|done]. intros Hnode.
    destruct (descent_from_key self n rest node Hd Hnode Hin)
      as (l & Hl' & Hlen & _).
    pose proof (descent_functional self node _ _ Hl'
                  (descent_step self node n rest Hin Hne Ht Hl Hu Hd)) as ->.
    simpl in Hlen. lia.
Qed.

(** The path returned by [_select] holds no node twice. *)
Lemma select_NoDup fuel self node (p : list Node) :
  _select fuel self node [] = Ok p → NoDup p.
Proof.
  intros (rest & -> & Hd)%select_descent. by apply (descent_NoDup self).
Qed.

(** With consistent tables a descent follows the moves of the game. *)
Lemma descent_chain self node (rest : list Node) :
  tables_consistent self → descent self node rest → chain node rest.
Proof.
  intros Hc. induction 1 as [node Hs|node n Hin Hne Ht Hl|node n rest Hin Hne Ht Hl Hu Hd IH].
  - done.
  - split; [|done]. apply last_Some_elem_of in Hl.
    apply list_elem_of_filter in Hl as [_ Hn].
    unfold child_of. by rewrite <- (get_children_consistent self).
  - split; [|done]. apply uct_select_item in Hu.
    unfold child_of. by rewrite <- (get_children_consistent self).
Qed.

(** Every node of a chain is reached from its head by one or more moves. *)
Lemma chain_tc x (l : list Node) d :
  chain x l → d ∈ l → tc child_of x d.
Proof.
  revert x. induction l as [|y l IH]; intros x; [by intros _ ?%elem_of_nil|].
  simpl. intros [Hxy Hchain] [->|Hd]%elem_of_cons.
  - by apply tc_once.
  - eapply tc_l; [exact Hxy|]. by apply IH.
Qed.

Section Ranked.
Variable rank : Node → nat.
Hypothesis rank_child : ∀ n c, child_of n c → (rank n < rank c)%nat.

Lemma pending_subset self node n :
  node ∈ dom (children self) → (rank node < rank n)%nat →
  pending rank self n ⊂ pending rank self node.
Proof.
  intros Hin Hlt. unfold pending. split.
  - intros x [Hx Hd]%elem_of_filter. apply elem_of_filter. split; [lia|done].
  - intros Hsub.
    assert (Hnode : node ∈ filter (λ x, rank node ≤ rank x)%nat
                                  (dom (children self)))
      by (apply elem_of_filter; split; [lia|done]).
    apply Hsub, elem_of_filter in Hnode as [Hle _]. lia.
Qed.

Lemma pending_size self node :
  (size (pending rank self node) ≤ size (dom (children self)))%nat.
Proof.
  apply subseteq_size. unfold pending. intros x [_ Hx]%elem_of_filter. done.
Qed.

(** [_select] returns once the fuel exceeds the number of keys it can
    still pass. *)
Lemma select_returns fuel self node (path : list Node) :
  tables_consistent self → keys_visited self →
  (size (pending rank self node) < fuel)%nat →
  ∃ p, _select fuel self node path = Ok p.
Proof.
  intros Hc Hv. revert node path.
  induction fuel as [|fuel IH]; intros node path Hfuel; [lia|].
  destruct (decide (node ∈ dom (children self))) as [Hin|Hout];
    [|rewrite select_stop by auto; eauto].
  destruct (decide (get_children self node = [])) as [Hnil|Hne];
    [rewrite select_stop by auto; eauto|].
  destruct (is_terminal node) eqn:Ht;
    [rewrite select_stop by auto; eauto|].
  destruct (last (filter (λ item, ¬ item ∈ dom (children self))
                         (get_children self node))) as [n|] eqn:Hlast.
  - rewrite (select_new_leaf _ _ _ _ n) by done. eauto.
  - assert (Hall : Forall (λ n, n ∈ dom (children self))
                          (get_children self node)).
    { apply no_unexplored_all_expanded in Hlast.
      apply Is_true_true, forallb_True in Hlast.
      eapply Forall_impl; [exact Hlast|]. intros x Hx.
      by apply bool_decide_unpack in Hx. }
    rewrite select_descend by done.
    destruct (uct_select_max self node) as (n & -> & Hn & _);
      [done | by apply Hv | | done |].
    { eapply Forall_impl; [exact Hall|]. intros x Hx. by apply Hv. }
    simpl. apply IH.
    rewrite (get_children_consistent self) in Hn by done.
    pose proof (subset_size _ _
      (pending_subset self node n Hin (rank_child _ _ Hn))). lia.
Qed.
End Ranked.
End PathFacts.

(* ===================================================================== *)
(** ** Backpropagation along a selected path *)

Section BackpropagateSpec.
Context `{Game State Action Node}.
Implicit Types (self : MCTS State Action Node) (x : Node).

(** C2: [_backpropagate] runs the loop body once for every node of the
    path, leaf first.  A path returned by [_select] holds no node twice,
    so every node on it gets its [N] incremented by exactly 1 and its [Q]
    changed by [+reward] if the node's current player is FIRST and by
    [-reward] otherwise; the entries of the nodes that are not on the path
    are untouched, and so is [children].  (For an arbitrary list of nodes
    the same holds once per occurrence.) *)
Theorem backpropagate_spec self (path : list Node) (reward : Z) x :
  let self' := _backpropagate self path reward in
  (∀ fuel self0 root, _select fuel self0 root [] = Ok path → x ∈ path →
     getN self' x = getN self x + 1
     ∧ getQ self' x
       = getQ self x
         + (if decide (current_player_id (node_state x) = FIRST)
            then reward else - reward))
  ∧ (x ∉ path → N self' !! x = N self !! x ∧ Q self' !! x = Q self !! x)
  ∧ children self' = children self
  ∧ (getN self' x = getN self x + visits x path
     ∧ getQ self' x = getQ self x + visits x path * signed_reward reward x).
Proof.
  intros self'. subst self'.
  destruct (backpropagate_counts self path reward x)
    as (HN & HQ & Hother & Hch & _).
  split; [|done].
  intros fuel self0 root Hsel Hx. apply select_NoDup in Hsel.
  rewrite HN, HQ, (visits_NoDup x path) by done.
  unfold signed_reward. split; lia.
Qed.
End BackpropagateSpec.

Lemma backpropagate_spec_witness :
  let g := tree_game in
  let self0 := _backpropagate (_expand toy_init t_root) [t_root] 1 in
  let self := _expand self0 t_b in
  let self' := _backpropagate self [t_root; t_b] (-1) in
  _select 3 self0 t_root [] = Ok [t_root; t_b]
  ∧ (getN self' t_root = getN self t_root + 1
     ∧ getQ self' t_root = getQ self t_root + -1)
  ∧ (getN self' t_b = getN self t_b + 1
     ∧ getQ self' t_b = getQ self t_b - -1)
  ∧ (N self' !! t_a = N self !! t_a ∧ Q self' !! t_a = Q self !! t_a).
Proof.
  intros g self0 self self'.
  assert (Hsel : _select 3 self0 t_root [] = Ok [t_root; t_b])
    by (vm_compute; reflexivity).
  split; [exact Hsel|].
  destruct (@backpropagate_spec _ _ _ _ _ g self [t_root; t_b] (-1) t_root)
    as (Hr & _).
  destruct (@backpropagate_spec _ _ _ _ _ g self [t_root; t_b] (-1) t_b)
    as (Hb & _).
  destruct (@backpropagate_spec _ _ _ _ _ g self [t_root; t_b] (-1) t_a)
    as (_ & Ha & _).
  split; [|split].
  - apply (Hr 3%nat self0 t_root Hsel). by_decide.
  - apply (Hb 3%nat self0 t_root Hsel). by_decide.
  - apply Ha. by_decide.
Defined.

(* ===================================================================== *)
(** ** Visit counts along a run of rollouts *)

Section RolloutFacts.
Context `{Game State Action Node}.
Implicit Types (self : MCTS State Action Node) (node : Node).

Lemma playout_agents fuel self1 self2 (game : State) :
  agents self1 = agents self2 →
  playout fuel self1 game = playout fuel self2 game.
Proof.
  intros Hag. revert game. induction fuel as [|fuel IH]; intros game; [done|].
  simpl. rewrite Hag. destruct (winner game); [done|].
  destruct (act _ _); [apply IH|done].
Qed.

Lemma playout_more_fuel fuel fuel' self (game : State) r :
  playout fuel self game = Ok r → (fuel ≤ fuel')%nat →
  playout fuel' self game = Ok r.
Proof.
  intros (n & final & w & Hn & Hsteps & Hw & ->)%playout_sound Hle.
  apply (playout_complete self n game final w); [done|done|lia].
Qed.

Lemma expand_agents self node : agents (_expand self node) = agents self.
Proof. unfold _expand. by destruct (expanded self node). Qed.

Lemma expand_getN self node x : getN (_expand self node) x = getN self x.
Proof. unfold _expand. by destruct (expanded self node). Qed.

Lemma expand_dom self node :
  dom (children (_expand self node)) = {[node]} ∪ dom (children self).
Proof.
  unfold _expand, expanded. case_bool_decide as Hin; simpl.
  - symmetry. apply subseteq_union_1_L. by apply singleton_subseteq_l.
  - by rewrite dom_insert_L.
Qed.

Lemma expand_consistent self node :
  tables_consistent self → tables_consistent (_expand self node).
Proof.
  intros Hc n l. unfold _expand, expanded. case_bool_decide; simpl.
  - apply Hc.
  - destruct (decide (node = n)) as [->|Hne].
    + rewrite lookup_insert_eq. by intros [= <-].
    + rewrite lookup_insert_ne by done. apply Hc.
Qed.

Lemma sum_N_backpropagate self (path l : list Node) reward :
  sum_N (_backpropagate self path reward) l
  = sum_N self l + sum_visits l path.
Proof.
  unfold sum_N, sum_visits. induction l as [|c l IH]; [done|].
  rewrite !fmap_cons. simpl. rewrite IH.
  destruct (backpropagate_counts self path reward c) as (-> & _). lia.
Qed.

Lemma sum_N_init (agents0 : PlayerOrder → State → Action) w
    (l : list Node) :
  sum_N (MCTS_init agents0 w) l = 0.
Proof.
  unfold sum_N. induction l as [|c l IH]; [done|].
  rewrite fmap_cons. cbn [foldr]. rewrite IH.
  unfold getN, MCTS_init. cbn [N]. by rewrite lookup_empty.
Qed.

(** A duplicate-free list holds a given node at most once. *)
Lemma sum_visits_single (l : list Node) c1 :
  NoDup l → sum_visits l [c1] ≤ 1.
Proof.
  unfold sum_visits. induction 1 as [|c l Hc Hl IH]; [done|].
  rewrite fmap_cons. simpl. rewrite visits_cons, visits_nil.
  destruct (decide (c1 = c)) as [->|Hne]; [|lia].
  assert (foldr Z.add 0 ((λ c0, visits c0 [c]) <$> l) = 0) as ->; [|lia].
  clear IH Hl. induction l as [|d l IH]; [done|].
  rewrite fmap_cons. simpl. apply not_elem_of_cons in Hc as [Hne Hc].
  rewrite (IH Hc), visits_cons, visits_nil.
  rewrite decide_False by done. lia.
Qed.

Lemma sum_visits_none (l path : list Node) :
  (∀ c, c ∈ l → c ∉ path) → sum_visits l path = 0.
Proof.
  unfold sum_visits. induction l as [|c l IH]; intros Hl; [done|].
  rewrite fmap_cons. simpl. rewrite visits_not_in by (apply Hl; left).
  rewrite IH; [done|]. intros d Hd. apply Hl. by right.
Qed.

Lemma sum_visits_cons (l path : list Node) x :
  sum_visits l (x :: path) = sum_visits l [x] + sum_visits l path.
Proof.
  unfold sum_visits. induction l as [|c l IH]; [done|].
  rewrite !fmap_cons. simpl. rewrite IH, !visits_cons, visits_nil. lia.
Qed.

(** What a rollout that returns has done. *)
Lemma do_rollout_inv fuel self node self' :
  do_rollout fuel self node = Ok self' →
  ∃ rest leaf r, descent self node rest
    ∧ last (node :: rest) = Some leaf
    ∧ self' = _backpropagate (_expand self leaf) (node :: rest) r.
Proof.
  unfold do_rollout. intros (p & Hsel & Hrest)%result_bind_Ok.
  apply select_descent in Hsel as (rest & -> & Hd). simpl app in Hrest.
  destruct (last (node :: rest)) as [leaf|] eqn:Hlast; [|done].
  apply result_bind_Ok in Hrest as (r & _ & [= <-]).
  by exists rest, leaf, r.
Qed.

Lemma rollout_getN self leaf (path : list Node) r x :
  getN (_backpropagate (_expand self leaf) path r) x
  = getN self x + visits x path.
Proof.
  destruct (backpropagate_counts (_expand self leaf) path r x) as (-> & _).
  by rewrite expand_getN.
Qed.

Lemma rollout_sum_N self leaf (path l : list Node) r :
  sum_N (_backpropagate (_expand self leaf) path r) l
  = sum_N self l + sum_visits l path.
Proof.
  rewrite sum_N_backpropagate. f_equal. unfold sum_N. f_equal.
  apply list_fmap_ext. intros ? x _. apply expand_getN.
Qed.

Lemma rollout_children self leaf (path : list Node) r :
  children (_backpropagate (_expand self leaf) path r)
  = children (_expand self leaf).
Proof. apply (backpropagate_counts (_expand self leaf) path r leaf). Qed.

(** Each rollout that returns visits the root once. *)
Lemma do_rollout_root fuel self root self' :
  do_rollout fuel self root = Ok self' →
  getN self' root = getN self root + 1.
Proof.
  intros (rest & leaf & r & Hd & _ & ->)%do_rollout_inv.
  rewrite rollout_getN. f_equal.
  apply visits_NoDup; [by apply (descent_NoDup self)|left].
Qed.

Lemma do_rollout_consistent fuel self root self' :
  tables_consistent self → do_rollout fuel self root = Ok self' →
  tables_consistent self'.
Proof.
  intros Hc (rest & leaf & r & _ & _ & ->)%do_rollout_inv n l.
  rewrite rollout_children. by apply expand_consistent.
Qed.

Section Apart.
Variable root : Node.
Hypothesis children_NoDup : NoDup (find_children root).
Hypothesis children_apart :
  ∀ c d, c ∈ find_children root → tc child_of c d → d ∉ find_children root.

(** A path from the root passes at most one of the root's children, and
    passes it once. *)
Lemma root_path_visits (rest : list Node) :
  chain root rest → sum_visits (find_children root) (root :: rest) ≤ 1.
Proof.
  intros Hchain. rewrite sum_visits_cons.
  rewrite (sum_visits_none _ [root]).
  2:{ intros c Hc ->%list_elem_of_singleton.
      apply (children_apart root root); [done|by apply tc_once|done]. }
  destruct rest as [|c1 rest'].
  { rewrite (sum_visits_none _ []); [lia|]. by intros c _ ?%elem_of_nil. }
  destruct Hchain as [Hc1 Hchain].
  rewrite sum_visits_cons.
  rewrite (sum_visits_none _ rest').
  2:{ intros c Hc Hin. apply (children_apart c1 c); [done| |done].
      by apply (chain_tc c1 rest'). }
  pose proof (sum_visits_single _ c1 children_NoDup). lia.
Qed.

Lemma do_rollout_child_sum fuel self self' :
  tables_consistent self → do_rollout fuel self root = Ok self' →
  sum_N self' (find_children root) ≤ sum_N self (find_children root) + 1.
Proof.
  intros Hc (rest & leaf & r & Hd & _ & ->)%do_rollout_inv.
  rewrite rollout_sum_N.
  pose proof (root_path_visits rest (descent_chain self root rest Hc Hd)).
  lia.
Qed.
End Apart.

(** The counts after [k] rollouts that returned. *)
Lemma rollouts_counts fuel (agents0 : PlayerOrder → State → Action) w
    root k self' :
  rollouts fuel k (MCTS_init agents0 w) root = Ok self' →
  tables_consistent self'
  ∧ getN self' root = Z.of_nat k
  ∧ (NoDup (find_children root) →
     (∀ c d, c ∈ find_children root → tc child_of c d →
             d ∉ find_children root) →
     sum_N self' (find_children root) ≤ Z.of_nat k).
Proof.
  revert self'. induction k as [|k IH]; intros self'.
  - intros [= <-]. split; [by intros n l ?|]. split; [done|].
    intros _ _. by rewrite sum_N_init.
  - simpl. intros (self & Hrun & Hstep)%result_bind_Ok.
    destruct (IH self Hrun) as (Hc & Hroot & Hsum).
    split; [by apply (do_rollout_consistent fuel self root)|]. split.
    + rewrite (do_rollout_root fuel self root self' Hstep). lia.
    + intros Hnd Hapart.
      pose proof (do_rollout_child_sum root Hnd Hapart fuel self self'
                    Hc Hstep).
      specialize (Hsum Hnd Hapart). lia.
Qed.

Section Run.
Variables (rank : Node → nat) (root : Node).
Variables (agents0 : PlayerOrder → State → Action) (horizon : nat).
Hypothesis rank_child : ∀ n c, child_of n c → (rank n < rank c)%nat.
Hypothesis playouts_end :
  ∀ self n, agents self = agents0 → ∃ r, _simulate horizon self n = Ok r.

Lemma run_inv_init w : run_inv agents0 0 (MCTS_init agents0 w).
Proof.
  split; [by intros n l ?|]. split; [by intros n ?%elem_of_dom_2|].
  split; [done|]. split; done.
Qed.

(** With fuel for its loops a rollout returns. *)
Lemma do_rollout_run fuel k self :
  run_inv agents0 k self → (k < fuel)%nat → (horizon ≤ fuel)%nat →
  ∃ self', do_rollout fuel self root = Ok self'
    ∧ run_inv agents0 (S k) self'.
Proof.
  intros (Hc & Hv & Hnn & Hag & Hsize) Hk Hh.
  destruct (select_returns rank rank_child fuel self root [] Hc Hv)
    as (p & Hsel).
  { pose proof (pending_size rank self root). lia. }
  destruct (select_descent _ _ _ _ _ Hsel) as (rest & -> & Hd).
  simpl app in *.
  destruct (last (root :: rest)) as [leaf|] eqn:Hlast;
    [|by apply last_None in Hlast].
  destruct (playouts_end (_expand self leaf) leaf) as (r & Hsim);
    [by rewrite expand_agents|].
  apply (playout_more_fuel _ fuel) in Hsim; [|done].
  exists (_backpropagate (_expand self leaf) (root :: rest) r).
  split.
  { unfold do_rollout. rewrite Hsel. simpl. rewrite Hlast.
    unfold _simulate. by rewrite Hsim. }
  split; [|split; [|split; [|split]]].
  - intros n l. rewrite rollout_children. by apply expand_consistent.
  - intros n. rewrite rollout_children, expand_dom, rollout_getN.
    intros [->%elem_of_singleton|Hn]%elem_of_union.
    + pose proof (visits_in leaf (root :: rest)
                    (last_Some_elem_of _ _ Hlast)).
      specialize (Hnn leaf). lia.
    + specialize (Hv n Hn). pose proof (visits_nonneg n (root :: rest)). lia.
  - intros n. rewrite rollout_getN.
    specialize (Hnn n). pose proof (visits_nonneg n (root :: rest)). lia.
  - destruct (backpropagate_counts (_expand self leaf) (root :: rest) r root)
      as (_ & _ & _ & _ & ->).
    by rewrite expand_agents.
  - rewrite rollout_children, expand_dom.
    rewrite size_union_alt, size_singleton.
    assert (Hd' : (size (dom (children self) ∖ {[leaf]})
                   ≤ size (dom (children self)))%nat).
    { apply subseteq_size. intros x [Hx _]%elem_of_difference. done. }
    lia.
Qed.

Lemma rollouts_run fuel w k :
  (k ≤ fuel)%nat → (horizon ≤ fuel)%nat →
  ∃ self', rollouts fuel k (MCTS_init agents0 w) root = Ok self'
    ∧ run_inv agents0 k self'.
Proof.
  intros Hk Hh. induction k as [|k IH].
  - eexists. split; [done|]. apply run_inv_init.
  - destruct IH as (self & Hrun & Hinv); [lia|].
    destruct (do_rollout_run fuel k self Hinv) as (self' & Hstep & Hinv');
      [lia|done|].
    exists self'. split; [|done]. simpl. by rewrite Hrun.
Qed.
End Run.

Lemma sum_N_get_children self root :
  tables_consistent self → (∀ k : Z, sum_N self (find_children root) ≤ k →
  0 ≤ k → sum_N self (get_children self root) ≤ k).
Proof.
  intros Hc k Hsum Hk.
  destruct (decide (root ∈ dom (children self))) as [Hin|Hout].
  - by rewrite (get_children_consistent self root Hc Hin).
  - apply not_elem_of_dom in Hout. unfold get_children. rewrite Hout.
    done.
Qed.

(** C1 (as amended).  From a fresh searcher, after [k] calls of
    [do_rollout(root)] that returned, [N[root] = k]: a returned path never
    holds a node twice, so each rollout visits the root once.  The sum of
    [N[child]] over [children[root]] is at most [N[root]] when
    [find_children()] lists no child of the root twice and no child of the
    root can be reached by one or more moves from a child of the root.
    The calls do return, given fuel for their loops, when a rank grows
    along every move of the game and the simulations end within [horizon]
    turns. *)
Theorem rollouts_visit_counts (root : Node)
    (agents0 : PlayerOrder → State → Action) (w : R) (fuel k : nat) :
  (∀ self', rollouts fuel k (MCTS_init agents0 w) root = Ok self' →
     getN self' root = Z.of_nat k
     ∧ (NoDup (find_children root) →
        (∀ c d, c ∈ find_children root → tc child_of c d →
                d ∉ find_children root) →
        sum_N self' (get_children self' root) ≤ getN self' root))
  ∧ (∀ (rank : Node → nat) (horizon : nat),
       (∀ n c, child_of n c → (rank n < rank c)%nat) →
       (∀ n, ∃ r, _simulate horizon (MCTS_init agents0 w) n = Ok r) →
       (horizon ≤ fuel)%nat → (k ≤ fuel)%nat →
       ∃ self', rollouts fuel k (MCTS_init agents0 w) root = Ok self').
Proof.
  split.
  - intros self' Hrun.
    destruct (rollouts_counts fuel agents0 w root k self' Hrun)
      as (Hc & Hroot & Hsum).
    split; [done|]. intros Hnd Hapart. rewrite Hroot.
    apply sum_N_get_children; [done|by apply Hsum|lia].
  - intros rank horizon Hrank Hend0 Hh Hk.
    assert (Hend : ∀ self n, agents self = agents0 →
                             ∃ r, _simulate horizon self n = Ok r).
    { intros self n Hag. destruct (Hend0 n) as (r & Hr). exists r.
      unfold _simulate in *.
      by rewrite (playout_agents _ _ (MCTS_init agents0 w)). }
    destruct (rollouts_run rank root agents0 horizon Hrank Hend
                fuel w k Hk Hh) as (self' & Hrun & _).
    by exists self'.
Qed.
End RolloutFacts.

Lemma rollouts_visit_counts_witness :
  let g := tree_game in
  ∃ self', rollouts 4 3 toy_init t_root = Ok self'
    ∧ getN self' t_root = 3
    ∧ sum_N self' (get_children self' t_root) ≤ getN self' t_root.
Proof.
  intros g.
  destruct (@rollouts_visit_counts _ _ _ _ _ g t_root unit_agents 1%R
              4%nat 3%nat) as (Hcount & Hret).
  destruct (Hret (λ n, match n with t_root => 0 | _ => 1 end)%nat 2%nat)
    as (self' & Hrun).
  - intros [] [] Hc; try lia; unfold child_of in Hc;
      apply (bool_decide_pack _) in Hc; vm_compute in Hc; done.
  - intros []; [exists 1|exists 1|exists (-1)]; reflexivity.
  - lia.
  - lia.
  - exists self'. split; [exact Hrun|].
    destruct (Hcount self' Hrun) as (HN & Hsum).
    split; [exact HN|]. apply Hsum.
    + by_decide.
    + intros c d Hc Htc.
      destruct Htc as [x y Hxy|x y z Hxy _]; destruct x;
        unfold child_of in Hxy;
        apply (bool_decide_pack _) in Hc, Hxy;
        vm_compute in Hc, Hxy; done.
Defined.

Lemma result_bind_ret {A B} (f : A → result B) (a : A) : Ok a ≫= f = f a.
Proof. reflexivity. Qed.

(** A rollout spelled out: the path of [_select], the expansion of its
    last node, the reward of [_simulate], then [_backpropagate]. *)
Lemma do_rollout_steps `{Game State Action Node} fuel
    (self : MCTS State Action Node) (node leaf : Node) path r :
  _select fuel self node [] = Ok path →
  last path = Some leaf →
  _simulate fuel (_expand self leaf) leaf = Ok r →
  do_rollout fuel self node
  = Ok (_backpropagate (_expand self leaf) path r).
Proof.
  intros Hsel Hlast Hsim. unfold do_rollout. rewrite Hsel. simpl.
  rewrite Hlast. by rewrite Hsim.
Qed.

(** In [dag_game], once [t_a] and [t_b] hold the same counts and rewards,
    the descent from [t_root] takes [t_a] (the first of the tied children)
    and then [t_b] below it. *)
Lemma dag_descent (self : MCTS TNode unit TNode) :
  let g := dag_game in
  children self = children dag_s3 →
  getN self t_b = getN self t_a → getQ self t_b = getQ self t_a →
  1 ≤ getN self t_root → 1 ≤ getN self t_a →
  _select 5 self t_root [] = Ok [t_root; t_a; t_b].
Proof.
  intros g Hch HN HQ Hroot Ha.
  assert (Hdom : ∀ n, n ∈ dom (children self)).
  { rewrite Hch. intros []; by_decide. }
  assert (Hr : get_children self t_root = [t_a; t_b])
    by (unfold get_children; rewrite Hch; reflexivity).
  assert (Hca : get_children self t_a = [t_b])
    by (unfold get_children; rewrite Hch; reflexivity).
  assert (Hcb : get_children self t_b = [])
    by (unfold get_children; rewrite Hch; reflexivity).
  rewrite select_descend;
    [| done | by rewrite Hr | done | rewrite Hr; by repeat constructor].
  rewrite (uct_select_tied self t_root t_a [t_b]);
    [| done | by repeat constructor | done | done | by repeat constructor].
  rewrite result_bind_ret.
  rewrite select_descend;
    [| done | by rewrite Hca | done | rewrite Hca; by repeat constructor].
  rewrite (uct_select_tied self t_a t_b []);
    [| done | by repeat constructor | done | lia | by constructor].
  rewrite result_bind_ret.
  rewrite select_stop by auto. done.
Qed.

(** The claim of C1 as stated fails: in [dag_game] the node [t_b] is a
    child of [t_root] and of [t_a].  After five rollouts from [t_root]
    the root has 5 visits while its children [t_a] and [t_b] have 3 each:
    the fourth and the fifth rollout went through both. *)
Lemma rollouts_child_sum_counterexample :
  let g := dag_game in
  (rollouts 5 5 toy_init t_root = Ok dag_s5
   ∧ getN dag_s5 t_root = 5
   ∧ get_children dag_s5 t_root = [t_a; t_b]
   ∧ sum_N dag_s5 (get_children dag_s5 t_root) = 6)
  ∧ ¬ (∀ (k : nat) (self : MCTS TNode unit TNode),
         rollouts 5 k toy_init t_root = Ok self →
         getN self t_root = Z.of_nat k
         ∧ sum_N self (get_children self t_root) ≤ getN self t_root).
Proof.
  intros g.
  assert (H3 : rollouts 5 3 toy_init t_root = Ok dag_s3)
    by (vm_compute; reflexivity).
  assert (H4 : do_rollout 5 dag_s3 t_root = Ok dag_s4).
  { rewrite (do_rollout_steps 5 dag_s3 t_root t_b [t_root; t_a; t_b] 1);
      [vm_compute; reflexivity | | reflexivity | vm_compute; reflexivity].
    apply dag_descent; first [reflexivity | by vm_compute]. }
  assert (H5 : do_rollout 5 dag_s4 t_root = Ok dag_s5).
  { rewrite (do_rollout_steps 5 dag_s4 t_root t_b [t_root; t_a; t_b] 1);
      [vm_compute; reflexivity | | reflexivity | vm_compute; reflexivity].
    apply dag_descent; first [vm_compute; reflexivity | by vm_compute]. }
  assert (Hrun : rollouts 5 5 toy_init t_root = Ok dag_s5).
  { change (rollouts 5 5 toy_init t_root)
      with (s4 ← (s3 ← rollouts 5 3 toy_init t_root; do_rollout 5 s3 t_root);
            do_rollout 5 s4 t_root).
    rewrite H3, result_bind_ret, H4, result_bind_ret. exact H5. }
  assert (Hsum : sum_N dag_s5 (get_children dag_s5 t_root) = 6)
    by (vm_compute; reflexivity).
  split.
  - split; [exact Hrun|]. split; [vm_compute; reflexivity|].
    split; [vm_compute; reflexivity|exact Hsum].
  - intros Hclaim. destruct (Hclaim 5%nat dag_s5 Hrun) as [HN Hle].
    rewrite Hsum, HN in Hle. lia.
Qed.

(* ===================================================================== *)
(** ** Searchers do not share their tables *)

Section InstanceFacts.
Context `{Game State Action Node}.
Implicit Types (heap : gmap nat (MCTS State Action Node)).




End InstanceFacts.


(* ===================================================================== *)
(** * Further properties of the searcher *)

Section ReachableFacts.
Context `{Game State Action Node}.
Implicit Types (self : MCTS State Action Node) (node : Node).

(** What a rollout that returns has done, with the reward it used. *)
Lemma do_rollout_inv_reward fuel self node self' :
  do_rollout fuel self node = Ok self' →
  ∃ rest leaf r, descent self node rest
    ∧ last (node :: rest) = Some leaf
    ∧ (r = 1 ∨ r = -1)
    ∧ self' = _backpropagate (_expand self leaf) (node :: rest) r.
Proof.
  unfold do_rollout. intros (p & Hsel & Hrest)%result_bind_Ok.
  apply select_descent in Hsel as (rest & -> & Hd). simpl app in Hrest.
  destruct (last (node :: rest)) as [leaf|] eqn:Hlast; [|done].
  apply result_bind_Ok in Hrest as (r & Hsim & [= <-]).
  exists rest, leaf, r. split; [done|]. split; [done|]. split; [|done].
  by apply playout_unit in Hsim.
Qed.

Lemma visits_le_1 x (l : list Node) : NoDup l → 0 ≤ visits x l ≤ 1.
Proof.
  intros Hnd. destruct (decide (x ∈ l)) as [Hin|Hout].
  - rewrite (visits_NoDup x l) by done. lia.
  - rewrite (visits_not_in x l) by done. lia.
Qed.

Lemma expand_getQ self node x : getQ (_expand self node) x = getQ self x.
Proof. unfold _expand. by destruct (expanded self node). Qed.

Lemma rollout_getQ self leaf (path : list Node) r x :
  getQ (_backpropagate (_expand self leaf) path r) x
  = getQ self x + visits x path * signed_reward r x.
Proof.
  destruct (backpropagate_counts (_expand self leaf) path r x)
    as (_ & -> & _).
  by rewrite expand_getQ.
Qed.

Lemma rollout_agents self leaf (path : list Node) r :
  agents (_backpropagate (_expand self leaf) path r) = agents self.
Proof.
  destruct (backpropagate_counts (_expand self leaf) path r leaf)
    as (_ & _ & _ & _ & ->).
  apply expand_agents.
Qed.

(** The facts every reachable searcher satisfies. *)
Lemma reachable_facts agents0 w self :
  reachable agents0 w self →
  tables_consistent self ∧ keys_visited self ∧ rewards_bounded self
  ∧ agents self = agents0.
Proof.
  induction 1 as [|self fuel node self' _ (Hc & Hv & Hb & Hag) Hstep].
  - split; [by intros n l ?|]. split; [by intros n ?%elem_of_dom_2|].
    split; [|done]. intros n. unfold getQ, getN. simpl.
    rewrite !lookup_empty. simpl. lia.
  - apply do_rollout_inv_reward in Hstep
      as (rest & leaf & r & Hd & Hlast & Hr & ->).
    pose proof (descent_NoDup self node rest Hd) as Hnd.
    assert (Hb' : rewards_bounded
                    (_backpropagate (_expand self leaf) (node :: rest) r)).
    { intros n. rewrite rollout_getQ, rollout_getN.
      pose proof (visits_le_1 n (node :: rest) Hnd).
      specialize (Hb n). unfold signed_reward.
      destruct (decide (_ = FIRST)); destruct Hr as [-> | ->]; nia. }
    split; [|split; [|split; [done|]]].
    + intros n l. rewrite rollout_children. by apply expand_consistent.
    + intros n. rewrite rollout_children, expand_dom, rollout_getN.
      intros [->%elem_of_singleton|Hn]%elem_of_union.
      * pose proof (visits_in leaf (node :: rest)
                      (last_Some_elem_of _ _ Hlast)).
        specialize (Hb leaf). lia.
      * specialize (Hv n Hn).
        pose proof (visits_nonneg n (node :: rest)). lia.
    + by rewrite rollout_agents.
Qed.

(** With visited keys [_select] does not raise. *)
Lemma select_no_raise fuel self node (path : list Node) e :
  keys_visited self → _select fuel self node path ≠ Raise e.
Proof.
  intros Hv. revert node path.
  induction fuel as [|fuel IH]; intros node path; [done|].
  destruct (decide (node ∈ dom (children self))) as [Hin|Hout];
    [|by rewrite select_stop by auto].
  destruct (decide (get_children self node = [])) as [Hnil|Hne];
    [by rewrite select_stop by auto|].
  destruct (is_terminal node) eqn:Ht; [by rewrite select_stop by auto|].
  destruct (last (filter (λ item, ¬ item ∈ dom (children self))
                         (get_children self node))) as [n|] eqn:Hlast.
  - by rewrite (select_new_leaf _ _ _ _ n).
  - assert (Hall : Forall (λ n, n ∈ dom (children self))
                          (get_children self node)).
    { apply no_unexplored_all_expanded in Hlast.
      apply Is_true_true, forallb_True in Hlast.
      eapply Forall_impl; [exact Hlast|]. intros x Hx.
      by apply bool_decide_unpack in Hx. }
    rewrite select_descend by done.
    destruct (uct_select_max self node) as (n & -> & _);
      [done | by apply Hv | | done |].
    { eapply Forall_impl; [exact Hall|]. intros x Hx. by apply Hv. }
    apply IH.
Qed.

Lemma playout_raise fuel self (game : State) e :
  playout fuel self game = Raise e → ∃ k, e = EngineError k.
Proof.
  revert game. induction fuel as [|fuel IH]; intros game; [done|].
  simpl. destruct (winner game); [done|].
  destruct (act _ _) as [game'|k]; [apply IH|].
  intros [= <-]. by exists k.
Qed.

(** X1: on a searcher reached from a fresh one by rollouts, [do_rollout]
    returns, or its loops go on, or the rules engine refused an action of
    an agent during the simulation: nothing else is raised (no division by
    a zero count, no logarithm of zero, no [max] of an empty list, no
    failed assertion). *)
Theorem do_rollout_raises_engine_errors_only agents0 w self fuel node :
  reachable agents0 w self →
  (∃ self', do_rollout fuel self node = Ok self')
  ∨ do_rollout fuel self node = OutOfFuel
  ∨ (∃ k, do_rollout fuel self node = Raise (EngineError k)).
Proof.
  intros (_ & Hv & _)%reachable_facts. unfold do_rollout.
  destruct (_select fuel self node []) as [p|e|] eqn:Hsel.
  - apply select_descent in Hsel as (rest & -> & Hd). simpl.
    destruct (last (node :: rest)) as [leaf|] eqn:Hlast;
      [|by apply last_None in Hlast].
    destruct (_simulate fuel (_expand self leaf) leaf) as [r|e|] eqn:Hsim;
      simpl; eauto.
    apply playout_raise in Hsim as (k & ->). eauto.
  - by apply select_no_raise in Hsel.
  - auto.
Qed.

(** X2: on a searcher reached from a fresh one, the total reward of every
    node lies between minus and plus its visit count; in particular no
    count is negative and every average reward is within [-1, 1]. *)
Theorem total_reward_within_visits agents0 w self n :
  reachable agents0 w self →
  - getN self n ≤ getQ self n ≤ getN self n.
Proof.
  intros (_ & _ & Hb & _)%reachable_facts. specialize (Hb n). lia.
Qed.

(** X3: on a searcher reached from a fresh one, every list stored in
    [children] is the [find_children()] of its key and every key has been
    visited; a rollout that returns stores the children of one node, the
    last of its path, and changes no other entry of [children]. *)
Theorem children_table_grows_by_leaf agents0 w self :
  reachable agents0 w self →
  (∀ n l, children self !! n = Some l →
          l = find_children n ∧ 1 ≤ getN self n)
  ∧ (∀ fuel node self', do_rollout fuel self node = Ok self' →
       ∃ path leaf, _select fuel self node [] = Ok path
         ∧ last path = Some leaf
         ∧ children self' = <[leaf := find_children leaf]> (children self)).
Proof.
  intros (Hc & Hv & _)%reachable_facts. split.
  - intros n l Hl. split; [by apply (Hc n)|]. apply Hv.
    by apply elem_of_dom_2 in Hl.
  - intros fuel node self'. unfold do_rollout.
    intros (p & Hsel & Hrest)%result_bind_Ok.
    destruct (last p) as [leaf|] eqn:Hlast; [|done].
    apply result_bind_Ok in Hrest as (r & _ & [= <-]).
    exists p, leaf. split; [done|]. split; [done|].
    rewrite rollout_children. unfold _expand, expanded.
    case_bool_decide as Hin; simpl; [|done].
    apply elem_of_dom in Hin as [l Hl]. symmetry. apply insert_id.
    by rewrite Hl, (Hc leaf l Hl).
Qed.

(** X4: on a searcher reached from a fresh one, [choose] on an expanded
    node that is not terminal returns one of the node's
    [find_children()], and raises only when that list is empty; on a
    terminal node it raises [RuntimeError]. *)
Theorem choose_returns_child agents0 w self node :
  reachable agents0 w self →
  (is_terminal node = true → choose self node = Raise RuntimeError)
  ∧ (is_terminal node = false → node ∈ dom (children self) →
     (find_children node = [] ∧ choose self node = Raise ValueError)
     ∨ (∃ c, choose self node = Ok c ∧ c ∈ find_children node)).
Proof.
  intros (Hc & _)%reachable_facts. unfold choose. split; [by intros ->|].
  intros -> Hin. unfold expanded. rewrite bool_decide_eq_true_2 by done.
  simpl. rewrite (get_children_consistent self node Hc Hin).
  destruct (find_children node) as [|x l] eqn:Hfc; [by left|].
  right.
  exists (max_from score_gt x (score self x)
                   (map (λ n, (n, score self n)) l)).
  split; [reflexivity|].
  destruct (max_from_item score_gt
              (map (λ n, (n, score self n)) l) x (score self x))
    as [Heq|Hin'].
  - rewrite Heq. left.
  - right. rewrite <- list_fmap_compose in Hin'.
    by rewrite list_fmap_id in Hin'.
Qed.
End ReachableFacts.

Section FrontierFacts.
Context `{Game State Action Node}.
Implicit Types (self : MCTS State Action Node) (node : Node).

Lemma but_last_cons_cons x y (l : list Node) :
  but_last (x :: y :: l) = x :: but_last (y :: l).
Proof. unfold but_last. simpl. by rewrite Nat.sub_0_r. Qed.

Lemma descent_frontier self node (rest : list Node) :
  descent self node rest →
  ∃ leaf, last (node :: rest) = Some leaf
    ∧ (leaf ∉ dom (children self) ∨ get_children self leaf = []
       ∨ is_terminal leaf = true)
    ∧ Forall (λ x, x ∈ dom (children self) ∧ get_children self x ≠ []
                   ∧ is_terminal x = false)
             (but_last (node :: rest)).
Proof.
  induction 1 as [node Hs|node n Hin Hne Ht Hl
                 |node n rest Hin Hne Ht Hl Hu Hd IH].
  - exists node. split; [done|]. split; [done|]. constructor.
  - exists n. split; [done|]. split.
    + left. by apply last_Some_elem_of, list_elem_of_filter in Hl as [? _].
    + rewrite but_last_cons_cons. by repeat constructor.
  - destruct IH as (leaf & Hlast & Hf & Hinner).
    exists leaf. split; [by rewrite last_cons_cons|]. split; [done|].
    rewrite but_last_cons_cons. by constructor.
Qed.

(** X5: the path returned by [_select] starts at the node it was called
    on and ends at the frontier: its last node is not a key of
    [children], or has an empty list of children, or is terminal, while
    every node before the last is a non-terminal key with children.  No
    node occurs twice on it. *)
Theorem select_ends_at_frontier fuel self node (path : list Node) :
  _select fuel self node [] = Ok path →
  head path = Some node
  ∧ NoDup path
  ∧ ∃ leaf, last path = Some leaf
      ∧ (leaf ∉ dom (children self) ∨ get_children self leaf = []
         ∨ is_terminal leaf = true)
      ∧ Forall (λ x, x ∈ dom (children self) ∧ get_children self x ≠ []
                     ∧ is_terminal x = false)
               (but_last path).
Proof.
  intros (rest & -> & Hd)%select_descent. simpl app.
  split; [done|]. split; [by apply (descent_NoDup self)|].
  by apply descent_frontier.
Qed.

Lemma max_from_Fin (key : Node → R) (l : list Node) best kbest :
  max_from score_gt best (Fin kbest) (map (λ n, (n, Fin (key n))) l)
  = max_from Rgtb best kbest (map (λ n, (n, key n)) l).
Proof.
  revert best kbest. induction l as [|x l IH]; intros best kbest; [done|].
  simpl. destruct (Rgtb (key x) kbest); apply IH.
Qed.

Lemma max_from_ext {A K} (gt : K → K → bool) (key key' : A → K)
    (l : list A) best kbest :
  Forall (λ n, key n = key' n) l →
  max_from gt best kbest (map (λ n, (n, key n)) l)
  = max_from gt best kbest (map (λ n, (n, key' n)) l).
Proof.
  intros Hl. revert best kbest.
  induction Hl as [|x l Hx _ IH]; intros best kbest; [done|].
  simpl. rewrite Hx. destruct (gt _ _); apply IH.
Qed.

(** X6: with a zero exploration weight the selection made during the
    search is the final one: on a non-terminal key all of whose children
    are visited keys, [_uct_select] and [choose] return the same thing. *)
Theorem uct_select_without_exploration self node :
  exploration_weight self = 0%R →
  is_terminal node = false → node ∈ dom (children self) →
  Forall (λ n, n ∈ dom (children self)) (get_children self node) →
  1 ≤ getN self node →
  Forall (λ n, 1 ≤ getN self n) (get_children self node) →
  _uct_select self node = choose self node.
Proof.
  intros Hw Ht Hin Hall Hp Hch.
  rewrite uct_select_positive by done.
  unfold choose, expanded. rewrite Ht, bool_decide_eq_true_2 by done.
  simpl. destruct (get_children self node) as [|x l]; [done|].
  simpl. f_equal.
  assert (Havg : ∀ n, uct_score self node n = average_reward self n).
  { intros n. unfold uct_score, average_reward.
    by rewrite Hw, Rmult_0_l, Rplus_0_r. }
  apply Forall_cons in Hch as [Hx Hl].
  rewrite (score_Fin self x) by lia.
  rewrite (max_from_ext score_gt (score self)
             (λ n, Fin (average_reward self n))).
  2:{ eapply Forall_impl; [exact Hl|]. intros n Hn. simpl in Hn.
      apply score_Fin. lia. }
  rewrite max_from_Fin, Havg.
  apply max_from_ext, Forall_forall. intros n _. by rewrite Havg.
Qed.

Lemma rollouts_visit_bounds fuel (agents0 : PlayerOrder → State → Action)
    w root k self' :
  rollouts fuel k (MCTS_init agents0 w) root = Ok self' →
  getN self' root = Z.of_nat k ∧ ∀ x, 0 ≤ getN self' x ≤ Z.of_nat k.
Proof.
  revert self'. induction k as [|k IH]; intros self'.
  - intros [= <-]. split; [done|]. intros x. unfold getN. simpl.
    rewrite lookup_empty. simpl. lia.
  - simpl. intros (self & Hrun & Hstep)%result_bind_Ok.
    destruct (IH self Hrun) as (Hroot & Hall). split.
    + rewrite (do_rollout_root fuel self root self' Hstep). lia.
    + intros x.
      apply do_rollout_inv in Hstep as (rest & leaf & r & Hd & _ & ->).
      rewrite rollout_getN.
      pose proof (visits_le_1 x (root :: rest)
                    (descent_NoDup self root rest Hd)).
      specialize (Hall x). lia.
Qed.

(** X7: after [k] calls of [do_rollout(root)] that returned on a fresh
    searcher, no node has been visited more often than the root: every
    count lies between 0 and [N[root] = k]. *)
Theorem no_node_outvisits_root fuel
    (agents0 : PlayerOrder → State → Action) w root k self' x :
  rollouts fuel k (MCTS_init agents0 w) root = Ok self' →
  0 ≤ getN self' x ≤ getN self' root.
Proof.
  intros (-> & Hall)%rollouts_visit_bounds. apply Hall.
Qed.
End FrontierFacts.

(** The tables [dag_s3] are reached by three rollouts in [dag_game]. *)
Lemma dag_s3_reachable :
  @reachable _ _ _ _ _ dag_game unit_agents 1%R dag_s3.
Proof.
  apply (@reachable_rollout _ _ _ _ _ dag_game _ _ dag_s2 5 t_root);
    [|vm_compute; reflexivity].
  apply (@reachable_rollout _ _ _ _ _ dag_game _ _ dag_s1 5 t_root);
    [|vm_compute; reflexivity].
  apply (@reachable_rollout _ _ _ _ _ dag_game _ _ toy_init 5 t_root);
    [|vm_compute; reflexivity].
  apply reachable_init.
Qed.

Lemma do_rollout_raises_engine_errors_only_witness :
  let g := dag_game in
  (∃ self', do_rollout 5 dag_s3 t_root = Ok self')
  ∨ do_rollout 5 dag_s3 t_root = OutOfFuel
  ∨ (∃ k, do_rollout 5 dag_s3 t_root = Raise (EngineError k)).
Proof.
  intros g.
  apply (@do_rollout_raises_engine_errors_only _ _ _ _ _ g unit_agents 1%R).
  apply dag_s3_reachable.
Defined.

Lemma total_reward_within_visits_witness :
  let g := dag_game in
  - getN dag_s3 t_a ≤ getQ dag_s3 t_a ≤ getN dag_s3 t_a.
Proof.
  intros g.
  apply (@total_reward_within_visits _ _ _ _ _ g unit_agents 1%R).
  apply dag_s3_reachable.
Defined.

Lemma children_table_grows_by_leaf_witness :
  let g := dag_game in
  (∀ n l, children dag_s3 !! n = Some l →
          l = find_children n ∧ 1 ≤ getN dag_s3 n)
  ∧ (∀ fuel node self', do_rollout fuel dag_s3 node = Ok self' →
       ∃ path leaf, _select fuel dag_s3 node [] = Ok path
         ∧ last path = Some leaf
         ∧ children self'
           = <[leaf := find_children leaf]> (children dag_s3)).
Proof.
  intros g.
  apply (@children_table_grows_by_leaf _ _ _ _ _ g unit_agents 1%R).
  apply dag_s3_reachable.
Defined.

Lemma choose_returns_child_witness :
  let g := dag_game in
  (find_children t_root = [] ∧ choose dag_s3 t_root = Raise ValueError)
  ∨ (∃ c, choose dag_s3 t_root = Ok c ∧ c ∈ find_children t_root).
Proof.
  intros g.
  destruct (@choose_returns_child _ _ _ _ _ g unit_agents 1%R dag_s3 t_root
              dag_s3_reachable) as (_ & Hc).
  apply Hc; [reflexivity|by_decide].
Defined.

Lemma select_ends_at_frontier_witness :
  let g := dag_game in
  head [t_root; t_a] = Some t_root
  ∧ NoDup [t_root; t_a]
  ∧ ∃ leaf, last [t_root; t_a] = Some leaf
      ∧ (leaf ∉ dom (children dag_s2) ∨ get_children dag_s2 leaf = []
         ∨ is_terminal leaf = true)
      ∧ Forall (λ x, x ∈ dom (children dag_s2)
                     ∧ get_children dag_s2 x ≠ []
                     ∧ is_terminal x = false)
               (but_last [t_root; t_a]).
Proof.
  intros g.
  apply (@select_ends_at_frontier _ _ _ _ _ g 5 dag_s2 t_root).
  vm_compute. reflexivity.
Defined.

Lemma uct_select_without_exploration_witness :
  let g := dag_game in
  let self := mkMCTS (agents dag_s3) (Q dag_s3) (N dag_s3)
                     (children dag_s3) 0%R in
  _uct_select self t_root = choose self t_root.
Proof.
  intros g self.
  apply (@uct_select_without_exploration _ _ _ _ _ g self t_root);
    [reflexivity | reflexivity | by_decide | by_decide | by vm_compute
    | by_decide].
Defined.

Lemma no_node_outvisits_root_witness :
  let g := dag_game in
  0 ≤ getN dag_s3 t_b ≤ getN dag_s3 t_root.
Proof.
  intros g.
  apply (@no_node_outvisits_root _ _ _ _ _ g 5 unit_agents 1%R t_root
           3%nat dag_s3 t_b).
  vm_compute. reflexivity.
Defined.

(* ===================================================================== *)
(** * [enums.py] and [rewards.py] *)

(** X8: the value of a [PlayerOrder] member gives the member back, a
    member comes only from its own value, [PlayerOrder(v)] raises
    [ValueError] exactly for the values other than 0 and 1, and
    [opposing] swaps the two members: it never raises, returns the member
    of the other value, and applied twice gives the member back. *)
Theorem player_order_round_trip :
  (∀ p, PlayerOrder_of (int_of p) = Ok p)
  ∧ (∀ v p, PlayerOrder_of v = Ok p → int_of p = v)
  ∧ (∀ v, PlayerOrder_of v = Raise ValueError ↔ v ≠ 0 ∧ v ≠ 1)
  ∧ (∀ p, ∃ o, opposing p = Ok o ∧ int_of o = 1 - int_of p
               ∧ opposing o = Ok p).
Proof.
  split; [by intros []|]. split; [|split].
  - intros v p. unfold PlayerOrder_of.
    destruct (v =? 0) eqn:E0; [apply Z.eqb_eq in E0; by intros [= <-]|].
    destruct (v =? 1) eqn:E1; [apply Z.eqb_eq in E1; by intros [= <-]|].
    done.
  - intros v. unfold PlayerOrder_of.
    destruct (v =? 0) eqn:E0; [apply Z.eqb_eq in E0; split; [done|lia]|].
    destruct (v =? 1) eqn:E1; [apply Z.eqb_eq in E1; split; [done|lia]|].
    apply Z.eqb_neq in E0, E1. done.
  - intros []; eexists; (split; [reflexivity|]); split; reflexivity.
Qed.

Lemma player_order_round_trip_witness :
  PlayerOrder_of 1 = Ok SECOND ∧ int_of SECOND = 1
  ∧ PlayerOrder_of 2 = Raise ValueError.
Proof.
  destruct player_order_round_trip as (_ & Hval & Hraise & _).
  split; [reflexivity|]. split.
  - apply (Hval 1 SECOND). reflexivity.
  - apply Hraise. lia.
Defined.

Section HealthRewardFacts.
Context {State : Type} (health : State → PlayerOrder → Z).

Lemma opponent_health_value state p opp :
  opposing p = Ok opp →
  opponent_health_calculate health state p
  = Ok (IZR (- Z.max 0 (health state opp)) / 30)%R.
Proof. unfold opponent_health_calculate. by intros ->. Qed.

(** X9: [OpponentHealthRewardFunction.calculate] never raises and never
    returns a positive reward; the reward is 0 exactly when the opposing
    player's health is 0 or less, it does not grow when that health
    grows, and while that health is not negative it is the opposite of
    what [PlayerHealthRewardFunction.calculate] gives the opposing
    player. *)
Theorem opponent_health_reward_spec state p :
  ∃ opp r,
    opposing p = Ok opp ∧ opp ≠ p
    ∧ opponent_health_calculate health state p = Ok r
    ∧ (r <= 0)%R
    ∧ (r = 0%R ↔ health state opp ≤ 0)
    ∧ (0 ≤ health state opp →
       r = (- player_health_calculate health state opp)%R)
    ∧ (∀ state' r', health state opp ≤ health state' opp →
         opponent_health_calculate health state' p = Ok r' →
         (r' <= r)%R).
Proof.
  assert (Hopp : ∃ opp, opposing p = Ok opp ∧ opp ≠ p)
    by (destruct p; eexists; split; try reflexivity; done).
  destruct Hopp as (opp & Hopp & Hne).
  exists opp, (IZR (- Z.max 0 (health state opp)) / 30)%R.
  split; [done|]. split; [done|].
  split; [by apply opponent_health_value|].
  assert (Hle : (IZR (- Z.max 0 (health state opp)) <= 0)%R)
    by (apply (IZR_le _ 0); lia).
  split; [lra|]. split; [|split].
  - split.
    + intros Hr.
      assert (Hz : IZR (- Z.max 0 (health state opp)) = 0%R) by lra.
      apply eq_IZR in Hz. lia.
    + intros Hh. rewrite Z.max_l by done. change (- 0) with 0. lra.
  - intros Hh. rewrite Z.max_r by done.
    unfold player_health_calculate. rewrite opp_IZR. lra.
  - intros state' r' Hh. rewrite (opponent_health_value state' p opp Hopp).
    intros [= <-].
    assert (Hm : (IZR (- Z.max 0 (health state' opp))
                  <= IZR (- Z.max 0 (health state opp)))%R)
      by (apply IZR_le; lia).
    lra.
Qed.
End HealthRewardFacts.

Lemma opponent_health_reward_spec_witness :
  let health := λ (state : Z * Z) p,
                  match p with FIRST => state.1 | SECOND => state.2 end in
  opponent_health_calculate health (30, 12) FIRST
  = Ok (Ropp (player_health_calculate health (30, 12) SECOND)).
Proof.
  intros health.
  destruct (opponent_health_reward_spec health (30, 12) FIRST)
    as (opp & r & Hopp & _ & -> & _ & _ & Hneg & _).
  injection Hopp as <-. f_equal. apply Hneg. simpl. lia.
Defined.

Lemma norm_char_idem c :
  let g := λ c, if Ascii.eqb (lower_char c) (Ascii.ascii_of_nat 32)
                then Ascii.ascii_of_nat 45 else lower_char c in
  g (g c) = g c.
Proof.
  destruct c as [[] [] [] [] [] [] [] []]; reflexivity.
Qed.

Lemma replace_space_lower_idem s :
  replace_space (lower (replace_space (lower s))) = replace_space (lower s).
Proof.
  induction s as [|c s IH]; [done|].
  simpl. rewrite IH. f_equal. apply (norm_char_idem c).
Qed.

Lemma dict_get_available key c :
  dict_get available_rewards key = Some c ↔ (key, c) ∈ available_rewards.
Proof.
  unfold available_rewards. rewrite !elem_of_cons, elem_of_nil. split.
  - cbn [dict_get].
    destruct (String.eqb_spec "win-loss" key) as [<-|_];
      [intros [= <-]; auto|].
    destruct (String.eqb_spec "player-health" key) as [<-|_];
      [intros [= <-]; auto|].
    destruct (String.eqb_spec "opponent-health" key) as [<-|_];
      [intros [= <-]; auto|].
    done.
  - intros [Heq|[Heq|[Heq|[]]]]; injection Heq as -> ->; reflexivity.
Qed.

(** X10: [parse_reward] finds every registered class under its own name,
    and on ASCII text it ignores the case of letters and takes a space
    for a hyphen: the name is looked up after lower-casing and replacing
    spaces, a step that changes nothing when applied again; a class is
    returned exactly when the name so normalised is registered for it,
    and [KeyError] is raised otherwise. *)
Theorem parse_reward_spec :
  (∀ k c, (k, c) ∈ available_rewards → parse_reward k = Some c)
  ∧ (∀ s, is_ascii s →
       parse_reward (replace_space (lower s)) = parse_reward s
       ∧ (∀ c, parse_reward s = Some c
               ↔ (replace_space (lower s), c) ∈ available_rewards)
       ∧ (parse_reward s = None
          ↔ ∀ c, (replace_space (lower s), c) ∉ available_rewards)).
Proof.
  split.
  - intros k c Hin. unfold available_rewards in Hin.
    rewrite !elem_of_cons, elem_of_nil in Hin.
    destruct Hin as [Heq|[Heq|[Heq|[]]]]; injection Heq as -> ->;
      reflexivity.
  - intros s _. unfold parse_reward. split; [|split].
    + by rewrite replace_space_lower_idem.
    + intros c. apply dict_get_available.
    + split.
      * intros Hnone c Hin. apply dict_get_available in Hin. congruence.
      * intros Hnot.
        destruct (dict_get available_rewards (replace_space (lower s)))
          as [c|] eqn:Hget; [|done].
        apply dict_get_available in Hget. by destruct (Hnot c).
Qed.

Lemma parse_reward_spec_witness :
  parse_reward "Opponent Health" = Some OpponentHealthRewardFunction
  ∧ parse_reward "opponent_health" = None.
Proof.
  destruct parse_reward_spec as (_ & Hspec).
  split.
  - apply (Hspec "Opponent Health"%string); [repeat split; apply Nat.ltb_lt; reflexivity|].
    change (replace_space (lower "Opponent Health"))
      with "opponent-health"%string.
    unfold available_rewards. rewrite !elem_of_cons. auto.
  - apply (Hspec "opponent_health"%string); [repeat split; apply Nat.ltb_lt; reflexivity|].
    intros c Hin.
    change (replace_space (lower "opponent_health"))
      with "opponent_health"%string in Hin.
    unfold available_rewards in Hin.
    rewrite !elem_of_cons, elem_of_nil in Hin.
    destruct Hin as [Heq|[Heq|[Heq|[]]]]; discriminate Heq.
Defined.

(* ===================================================================== *)
(** * [runner.py] *)

Section RunnerFacts.
Context `{Game State Action Node}.
Variable phase : State → Phase.
Variable new_game : Z → State.
Implicit Types (game : State).

Lemma play_game_sound fuel
    (draft_bots battle_bots : (State → Action) * (State → Action))
    game final :
  play_game phase fuel draft_bots battle_bots game = Ok final →
  ∃ n, (n < fuel)%nat
    ∧ nsteps (match_turn phase draft_bots battle_bots) n game final
    ∧ is_Some (winner final).
Proof.
  revert game. induction fuel as [|fuel IH]; intros game; [done|].
  simpl. destruct (winner game) as [w|] eqn:Hw.
  - intros [= <-]. exists 0%nat. split; [lia|]. split; [constructor|].
    rewrite Hw. eauto.
  - destruct (act game _) as [game'|k] eqn:Hact; [|done].
    intros (n & Hn & Hsteps & Hfinal)%IH.
    exists (S n). split; [lia|]. split; [|done].
    by apply nsteps_l with game'.
Qed.

Lemma play_game_complete
    (draft_bots battle_bots : (State → Action) * (State → Action))
    n game final :
  nsteps (match_turn phase draft_bots battle_bots) n game final →
  is_Some (winner final) →
  ∀ fuel, (n < fuel)%nat →
    play_game phase fuel draft_bots battle_bots game = Ok final.
Proof.
  intros Hsteps [w Hw].
  induction Hsteps as [game|n game game' final [Hnone Hact] _ IH];
    intros [|fuel] Hfuel; try lia.
  - simpl. by rewrite Hw.
  - simpl. rewrite Hnone, Hact. apply IH; [done|lia].
Qed.

(** X11: [evaluate] on a five-item tuple plays the game created from
    [seed + game_id]: while there is no winner, the draft bot of the
    current player moves in the draft phase and the battle bot of the
    current player otherwise.  When it returns, it returns the winner of
    the state reached, [games] has grown by one and [wins] by one exactly
    when FIRST won, so [0 <= wins <= games] is kept; and a game that
    reaches a winner within the fuel makes it return so. *)
Theorem evaluate_spec fuel game_id (player_1 player_2 : player State Action) seed silent
    (wins games : Z) :
  let draft_bots := (player_1.1, player_2.1) in
  let battle_bots := (player_1.2, player_2.2) in
  let params := Params5 game_id player_1 player_2 seed silent in
  (∀ w wins' games',
     evaluate phase new_game fuel params (wins, games)
     = Ok (w, (wins', games')) →
     games' = games + 1
     ∧ wins' = wins + (if decide (w = Some FIRST) then 1 else 0)
     ∧ (0 ≤ wins ≤ games → 0 ≤ wins' ≤ games')
     ∧ ∃ n final, (n < fuel)%nat
         ∧ nsteps (match_turn phase draft_bots battle_bots) n
                  (new_game (seed + game_id)) final
         ∧ is_Some (winner final) ∧ w = winner final)
  ∧ (∀ n final,
       nsteps (match_turn phase draft_bots battle_bots) n
              (new_game (seed + game_id)) final →
       is_Some (winner final) → (n < fuel)%nat → games + 1 ≠ 0 →
       evaluate phase new_game fuel params (wins, games)
       = Ok (winner final,
             (wins + (if decide (winner final = Some FIRST) then 1 else 0),
              games + 1))).
Proof.
  intros draft_bots battle_bots params. split.
  - intros w wins' games'. unfold params, evaluate.
    intros (final & Hplay & Hrest)%result_bind_Ok. simpl in Hrest.
    destruct (games + 1 =? 0); [done|]. injection Hrest as <- <- <-.
    apply play_game_sound in Hplay as (n & Hn & Hsteps & Hw).
    split; [done|]. split; [done|]. split.
    + intros Hb. destruct (decide (_ = Some FIRST)); lia.
    + by exists n, final.
  - intros n final Hsteps Hw Hn Hg. unfold params, evaluate.
    rewrite (play_game_complete draft_bots battle_bots n _ final)
      by done.
    rewrite result_bind_ret. simpl.
    apply Z.eqb_neq in Hg. by rewrite Hg.
Qed.

Lemma py_range_nonpos n : n ≤ 0 → py_range n = [].
Proof. intros Hn. unfold py_range. by rewrite Z2Nat.nonpos. Qed.

Lemma py_range_pos n : 1 ≤ n → ∃ l, py_range n = 0 :: l.
Proof.
  intros Hn. unfold py_range.
  destruct (Z.to_nat n) as [|m] eqn:E; [lia|]. simpl. eauto.
Qed.





(** X13: the profile branch of [run] never gets to print a ratio.  Its
    loop hands [evaluate] a tuple of four items, which [evaluate] cannot
    unpack into its five names: with one game or more the first call
    raises [ValueError]; with no game the final division raises
    [ZeroDivisionError]. *)
Theorem run_profile_never_returns fuel games
    (player_1 player_2 : player State Action) seed :
  (1 ≤ games →
   run_profile phase new_game fuel games player_1 player_2 seed
   = Raise ValueError)
  ∧ (games ≤ 0 →
     run_profile phase new_game fuel games player_1 player_2 seed
     = Raise ZeroDivisionError)
  ∧ (∀ ratio,
       run_profile phase new_game fuel games player_1 player_2 seed
       ≠ Ok ratio).
Proof.
  assert (Hpos : 1 ≤ games →
    run_profile phase new_game fuel games player_1 player_2 seed
    = Raise ValueError).
  { intros (l & Hl)%py_range_pos. unfold run_profile. by rewrite Hl. }
  assert (Hnon : games ≤ 0 →
    run_profile phase new_game fuel games player_1 player_2 seed
    = Raise ZeroDivisionError).
  { intros Hn. unfold run_profile. by rewrite py_range_nonpos. }
  split; [done|]. split; [done|].
  intros ratio. destruct (decide (1 ≤ games)) as [Hn|Hn].
  - by rewrite Hpos.
  - rewrite Hnon by lia. done.
Qed.
End RunnerFacts.


Lemma evaluate_spec_witness :
  let g := tree_game in
  evaluate toy_phase toy_new_game 3
           (Params5 0 toy_player toy_player 7 true) (0, 0)
  = Ok (Some FIRST, (1, 1)).
Proof.
  intros g.
  destruct (@evaluate_spec _ _ _ _ _ g toy_phase toy_new_game 3 0
              toy_player toy_player 7 true 0 0) as (_ & Hc).
  apply (Hc 1%nat t_a); [|by eexists|lia|lia].
  apply nsteps_l with t_a; [split; reflexivity|constructor].
Defined.


Lemma run_profile_never_returns_witness :
  let g := tree_game in
  run_profile toy_phase toy_new_game 3 2 toy_player toy_player 7
  = Raise ValueError.
Proof.
  intros g.
  destruct (@run_profile_never_returns _ _ _ _ _ g toy_phase toy_new_game
              3 2 toy_player toy_player 7) as (Hp & _).
  apply Hp. lia.
Defined.

(* ===================================================================== *)
(** ** [interleaved-self-play.py]: the minibatch count and the evaluation *)

Lemma fit_nminibatches_spec fuel n m :
  1 ≤ m → (Z.to_nat m ≤ fuel)%nat →
  ∃ r, fit_nminibatches fuel n m = Ok r
       ∧ 1 ≤ r ≤ m ∧ (r | n) ∧ ∀ d, r < d ≤ m → ¬ (d | n).
Proof.
  revert m. induction fuel as [|fuel IH]; intros m Hm Hfuel; [lia|].
  cbn [fit_nminibatches].
  destruct (m =? 0) eqn:E0; [apply Z.eqb_eq in E0; lia|].
  destruct (n mod m =? 0) eqn:E; cbn [negb].
  - apply Z.eqb_eq in E. exists m. split; [done|]. split; [lia|]. split.
    + apply Z.mod_divide; [lia|done].
    + intros d Hd. lia.
  - apply Z.eqb_neq in E.
    assert (Hm2 : 2 ≤ m).
    { destruct (decide (m = 1)) as [->|]; [|lia]. by rewrite Z.mod_1_r in E. }
    destruct (IH (m - 1)) as (r & Hr & Hb & Hdiv & Hmax); [lia|lia|].
    exists r. split; [done|]. split; [lia|]. split; [done|].
    intros d Hd Hdn. destruct (decide (d = m)) as [->|Hne].
    + apply E, Z.mod_divide; [lia|done].
    + apply (Hmax d); [lia|done].
Qed.

(** X14: [train_and_eval] leaves in [params['nminibatches']] the greatest
    divisor of [n_steps] that is at most the value asked for and at most
    [n_steps]; a value that already divides [n_steps] is kept.  The loop
    ends within [min(nminibatches, n_steps)] tests.  When the smaller of
    the two values is 0 the first test raises [ZeroDivisionError]. *)
Theorem ensure_nminibatches_spec fuel n_steps nminibatches :
  (Z.min nminibatches n_steps = 0 → (1 ≤ fuel)%nat →
   ensure_nminibatches fuel n_steps nminibatches = Raise ZeroDivisionError)
  ∧ (1 ≤ n_steps → 1 ≤ nminibatches →
     (Z.to_nat (Z.min nminibatches n_steps) ≤ fuel)%nat →
     ∃ r, ensure_nminibatches fuel n_steps nminibatches = Ok r
       ∧ 1 ≤ r ≤ nminibatches ∧ r ≤ n_steps ∧ (r | n_steps)
       ∧ (∀ d, r < d ≤ nminibatches → d ≤ n_steps → ¬ (d | n_steps))
       ∧ ((nminibatches | n_steps) → r = nminibatches)).
Proof.
  split.
  - intros Hmin Hfuel. unfold ensure_nminibatches. rewrite Hmin.
    destruct fuel; [lia|done].
  - intros Hn Hm Hfuel. unfold ensure_nminibatches.
    destruct (fit_nminibatches_spec fuel n_steps
                (Z.min nminibatches n_steps))
      as (r & Hr & Hb & Hdiv & Hmax); [lia|done|].
    exists r. split; [done|]. split; [lia|]. split; [lia|].
    split; [done|]. split.
    + intros d Hd Hdn. apply Hmax. lia.
    + intros Hmn. destruct (decide (r = nminibatches)) as [|Hne]; [done|].
      assert (nminibatches ≤ n_steps)
        by (apply Z.divide_pos_le; [lia|done]).
      exfalso. apply (Hmax nminibatches); [lia|done].
Qed.

Lemma ensure_nminibatches_spec_witness :
  ensure_nminibatches 8 30 8 = Ok 6
  ∧ ensure_nminibatches 1 30 0 = Raise ZeroDivisionError.
Proof.
  destruct (ensure_nminibatches_spec 8 30 8) as [_ Hfit].
  destruct (ensure_nminibatches_spec 1 30 0) as [Hzero _].
  split; [|apply Hzero; [reflexivity|lia]].
  destruct Hfit as (r & Hr & _); [lia|lia|vm_compute; lia|].
  reflexivity.
Defined.

Lemma sum_R_app l1 l2 : sum_R (l1 ++ l2) = (sum_R l1 + sum_R l2)%R.
Proof.
  induction l1 as [|x l1 IH]; simpl; [lra|].
  fold (sum_R (l1 ++ l2)) (sum_R l1). rewrite IH. lra.
Qed.

Lemma sum_R_add_last (l : list R) r :
  l ≠ [] →
  sum_R (alter (λ x, x + r)%R (length l - 1)%nat l) = (sum_R l + r)%R.
Proof.
  intros Hl. destruct (exists_last Hl) as (l' & x & ->).
  rewrite length_app. simpl length.
  replace (length l' + 1 - 1)%nat with (length l' + 0)%nat by lia.
  rewrite alter_app_r. simpl alter. rewrite !sum_R_app. simpl. lra.
Qed.

Lemma concat_insert_measures (eps : list (list R)) i ep ep' :
  eps !! i = Some ep →
  (length (concat (<[i := ep']> eps)) + length ep
   = length (concat eps) + length ep')%nat
  ∧ (sum_R (concat (<[i := ep']> eps)) + sum_R ep
     = sum_R (concat eps) + sum_R ep')%R.
Proof.
  revert i. induction eps as [|e eps IH]; intros i Hi; [done|].
  destruct i as [|i]; simpl in Hi.
  - injection Hi as ->. simpl. rewrite !length_app, !sum_R_app.
    split; [lia|lra].
  - destruct (IH i Hi) as [Hlen Hsum]. simpl.
    rewrite !length_app, !sum_R_app. split; [lia|lra].
Qed.

Lemma record_env_measures rs ds eps i r (d : bool) :
  episodes_open eps → (i < length eps)%nat →
  rs !! i = Some r → ds !! i = Some d →
  ∃ eps', record_env rs ds eps i = Ok eps'
    ∧ episodes_open eps' ∧ length eps' = length eps
    ∧ length (concat eps')
      = (length (concat eps) + (if d then 1 else 0))%nat
    ∧ sum_R (concat eps') = (sum_R (concat eps) + r)%R.
Proof.
  intros Hopen Hi Hr Hd. unfold record_env.
  destruct (lookup_lt_is_Some_2 eps i Hi) as (ep & Hep). rewrite Hep.
  assert (Hne : ep ≠ []).
  { eapply (proj1 (Forall_forall _ _) Hopen), list_elem_of_lookup_2, Hep. }
  destruct ep as [|x ep]; [done|]. rewrite Hr, Hd.
  set (ep1 := alter _ _ (x :: ep)).
  assert (Hlen1 : length ep1 = length (x :: ep))
    by (unfold ep1; apply length_alter).
  assert (Hsum1 : sum_R ep1 = (sum_R (x :: ep) + r)%R)
    by (unfold ep1; by apply sum_R_add_last).
  set (ep2 := if d then ep1 ++ [0%R] else ep1).
  assert (Hlen2 : length ep2
                  = (length (x :: ep) + (if d then 1 else 0))%nat).
  { unfold ep2. destruct d; [rewrite length_app; simpl length in *|]; lia. }
  assert (Hsum2 : sum_R ep2 = (sum_R (x :: ep) + r)%R).
  { unfold ep2. destruct d; [rewrite sum_R_app, Hsum1; simpl|]; lra. }
  exists (<[i := ep2]> eps). split; [done|]. split; [|split].
  - apply Forall_insert; [done|]. intros ->. simpl in Hlen2. lia.
  - apply length_insert.
  - destruct (concat_insert_measures eps i (x :: ep) ep2 Hep)
      as [Hl Hs]. split; [lia|lra].
Qed.

Lemma record_envs_measures rs ds k : ∀ a eps,
  episodes_open eps → (a + k ≤ length eps)%nat →
  (a + k ≤ length rs)%nat → (a + k ≤ length ds)%nat →
  ∃ eps', for_each (record_env rs ds) eps (seq a k) = Ok eps'
    ∧ episodes_open eps' ∧ length eps' = length eps
    ∧ length (concat eps')
      = (length (concat eps)
         + length (filter (λ d, d = true) (take k (drop a ds))))%nat
    ∧ sum_R (concat eps')
      = (sum_R (concat eps) + sum_R (take k (drop a rs)))%R.
Proof.
  induction k as [|k IH]; intros a eps Hopen Heps Hrs Hds.
  - exists eps. rewrite !take_0. simpl.
    split; [done|]. split; [done|]. split; [done|]. split; [lia|lra].
  - destruct (lookup_lt_is_Some_2 rs a) as (r & Hr); [lia|].
    destruct (lookup_lt_is_Some_2 ds a) as (d & Hd); [lia|].
    destruct (record_env_measures rs ds eps a r d)
      as (eps1 & Hrec & Hopen1 & Hlen1 & Hcnt1 & Hsum1);
      [done|lia|done|done|].
    destruct (IH (S a) eps1)
      as (eps2 & Hfor & Hopen2 & Hlen2 & Hcnt2 & Hsum2);
      [done|lia|lia|lia|].
    exists eps2. cbn [seq for_each]. rewrite Hrec, result_bind_ret.
    split; [done|]. split; [done|]. split; [lia|].
    rewrite (drop_S rs r a Hr), (drop_S ds d a Hd). simpl take.
    split.
    + rewrite Hcnt2, Hcnt1. destruct d.
      * rewrite filter_cons_True by done. simpl length. lia.
      * rewrite filter_cons_False by done. lia.
    + rewrite Hsum2, Hsum1. simpl. fold (sum_R (take k (drop (S a) rs))).
      lra.
Qed.

Lemma dones_total_cons o outcomes :
  dones_total (o :: outcomes)
  = (length (filter (λ d, d = true) o.2) + dones_total outcomes)%nat.
Proof. reflexivity. Qed.

Lemma rewards_total_cons o outcomes :
  rewards_total (o :: outcomes)
  = (sum_R o.1 + rewards_total outcomes)%R.
Proof. reflexivity. Qed.

Lemma record_steps_measures num_envs outcomes : ∀ eps,
  episodes_open eps → length eps = num_envs →
  Forall (λ o, length o.1 = num_envs ∧ length o.2 = num_envs) outcomes →
  ∃ eps', for_each (record_step num_envs) eps outcomes = Ok eps'
    ∧ length (concat eps')
      = (length (concat eps) + dones_total outcomes)%nat
    ∧ sum_R (concat eps')
      = (sum_R (concat eps) + rewards_total outcomes)%R.
Proof.
  induction outcomes as [|[rs ds] outcomes IH]; intros eps Hopen Hlen Hall.
  - exists eps. unfold dones_total, rewards_total. simpl.
    split; [done|]. split; [lia|lra].
  - apply Forall_cons in Hall as [[Hrs Hds] Hall]. simpl in Hrs, Hds.
    destruct (record_envs_measures rs ds num_envs 0 eps)
      as (eps1 & Hfor & Hopen1 & Hlen1 & Hcnt1 & Hsum1);
      [done|lia|lia|lia|].
    rewrite drop_0 in Hcnt1. rewrite drop_0 in Hsum1.
    rewrite take_ge in Hcnt1 by lia. rewrite take_ge in Hsum1 by lia.
    destruct (IH eps1) as (eps2 & Hfor2 & Hcnt2 & Hsum2);
      [done|lia|done|].
    exists eps2. cbn [for_each].
    change (record_step num_envs eps (rs, ds))
      with (for_each (record_env rs ds) eps (seq 0 num_envs)).
    rewrite Hfor, result_bind_ret. split; [done|].
    rewrite dones_total_cons, rewards_total_cons. cbn [fst snd].
    split; [lia|lra].
Qed.

Lemma concat_replicate_zero n :
  length (concat (replicate n [0%R])) = n
  ∧ sum_R (concat (replicate n [0%R])) = 0%R.
Proof.
  induction n as [|n [IHl IHs]]; [done|]. simpl.
  fold (sum_R (concat (replicate n [0%R]))). split; [lia|lra].
Qed.

(** X15: the evaluation made by [make_evaluate], when every step returns
    one reward and one flag for each environment, raises nothing and
    conserves the rewards: [all_rewards] holds one item for each
    environment and one more for every episode that finished, so the
    episode that is still open at the end of each environment is counted
    too (with reward 0 when the last step finished one), and its items add
    up to all the rewards received. *)
Theorem all_rewards_accounting num_envs outcomes :
  Forall (λ o, length o.1 = num_envs ∧ length o.2 = num_envs) outcomes →
  ∃ l, all_rewards num_envs outcomes = Ok l
    ∧ length l = (num_envs + dones_total outcomes)%nat
    ∧ sum_R l = rewards_total outcomes.
Proof.
  intros Hall. unfold all_rewards.
  destruct (record_steps_measures num_envs outcomes
              (replicate num_envs [0%R]))
    as (eps & Hfor & Hcnt & Hsum); [| |done|].
  { apply Forall_replicate. done. }
  { apply length_replicate. }
  destruct (concat_replicate_zero num_envs) as [Hl0 Hs0].
  exists (concat eps). rewrite Hfor, result_bind_ret.
  split; [done|]. split; [lia|lra].
Qed.

Lemma all_rewards_accounting_witness :
  ∃ l, all_rewards 2 [([1; 0]%R, [true; false]); ([1; 1]%R, [false; true])]
       = Ok l
    ∧ length l = 4%nat ∧ sum_R l = 3%R.
Proof.
  destruct (all_rewards_accounting 2
              [([1; 0]%R, [true; false]); ([1; 1]%R, [false; true])])
    as (l & Hl & Hlen & Hsum); [repeat constructor|].
  exists l. split; [exact Hl|]. split; [exact Hlen|].
  rewrite Hsum. unfold rewards_total, sum_R. simpl. lra.
Defined.
